(** * Agent orchestration tools: spawn, batch spawn, status and termination

    A shallow embedding of [src/claude_mcp_tools/tools/agents.py].

    - Python dictionaries with string keys are [gmap string _]; the set of
      placed request indices of the wave scheduler is a [gset nat].
    - Code that talks to collaborators (the agent record store, the room
      service, the process launcher, psutil) runs in a state-and-exception
      monad over a [World] made of the durable store and the trace of
      collaborator calls issued so far.
    - The outcome of every collaborator call of one tool invocation is fixed
      by an environment record, so that each function is an executable Rocq
      function of its arguments, its environment and the world. *)

From stdpp Require Import gmap strings list fin_maps pretty.
From Stdlib Require Import ZArith Lia.

Set Warnings "-clear-no-such-hyp".

Open Scope string_scope.
Open Scope list_scope.

(** ** Python values that occur in the orchestration code *)

(** A dependency reference of a request: [depends_on] holds strings (an
    agent id, an agent type, an index written as text) or integers (an
    index). *)
Inductive Dep :=
  | DStr (s : string)
  | DInt (z : Z).

(** Python's [str(dep)]. *)
Definition str_dep (d : Dep) : string :=
  match d with
  | DStr s => s
  | DInt z => pretty z
  end.

(** Values stored in configuration dictionaries. *)
#[warnings="-register-all"]
Inductive PyVal :=
  | VNone
  | VBool (b : bool)
  | VInt (z : Z)
  | VStr (s : string)
  | VList (l : list PyVal).

Definition val_of_dep (d : Dep) : PyVal :=
  match d with
  | DStr s => VStr s
  | DInt z => VInt z
  end.

(** The [configuration] argument as callers supply it:
    [str | dict[str, Any] | None]. *)
Inductive RawConfiguration :=
  | RawNone
  | RawStr (s : string)
  | RawDict (d : gmap string PyVal).

(** One entry of the [agents] list of [spawn_agents_batch], a dictionary.
    A key that may be absent is an [option]; [cfg_agent_id] is the optional
    ["agent_id"] key that the wave scheduler looks at. *)
Record AgentConfig := {
  cfg_agent_type : option string;
  cfg_task_description : option string;
  cfg_agent_id : option string;
  cfg_capabilities : option (list string);
  cfg_initial_context : option string;
  cfg_configuration : RawConfiguration;
  cfg_depends_on : option (list Dep)
}.

(** [enumerate(l)]. *)
Definition enumerate {A} (l : list A) : list (nat * A) := imap pair l.

(** ** The wave scheduler: [_organize_by_dependencies] *)

(** [other_config.get("agent_id") == dep]: a missing key gives [None], which
    equals no dependency reference; a string equals only the same string. *)
Definition get_eq_dep (field : option string) (dep : Dep) : bool :=
  match field, dep with
  | Some s, DStr d => bool_decide (s = d)
  | _, _ => false
  end.

(** The inner [for j, other_config in enumerate(agents_config)] loop: is
    there a placed request that [dep] names by id, by index or by type? *)
Definition dep_found (agents_config : list AgentConfig) (placed_agents : gset nat)
    (dep : Dep) : bool :=
  existsb
    (fun '(j, other_config) =>
       bool_decide (j ∈ placed_agents) &&
       (get_eq_dep (cfg_agent_id other_config) dep
        || bool_decide (pretty j = str_dep dep)
        || get_eq_dep (cfg_agent_type other_config) dep))
    (enumerate agents_config).

(** The [for dep in depends_on] loop with its [break]. *)
Definition dependencies_satisfied (agents_config : list AgentConfig)
    (placed_agents : gset nat) (depends_on : list Dep) : bool :=
  forallb (dep_found agents_config placed_agents) depends_on.

(** [not depends_on or dependencies_satisfied]. *)
Definition joins_wave (agents_config : list AgentConfig) (placed_agents : gset nat)
    (agent_config : AgentConfig) : bool :=
  let depends_on := default [] (cfg_depends_on agent_config) in
  match depends_on with
  | [] => true
  | _ :: _ => dependencies_satisfied agents_config placed_agents depends_on
  end.

(** One pass of [for i, agent_config in enumerate(agents_config)].  The set
    [placed_agents] is updated while the pass runs, so a request placed
    earlier in the pass already counts as placed for the requests that
    follow it in the same pass. *)
Fixpoint scan_requests (agents_config : list AgentConfig)
    (todo : list (nat * AgentConfig)) (placed_agents : gset nat)
    (current_wave : list AgentConfig) : list AgentConfig * gset nat :=
  match todo with
  | [] => (current_wave, placed_agents)
  | (i, agent_config) :: rest =>
      if bool_decide (i ∈ placed_agents) then
        scan_requests agents_config rest placed_agents current_wave
      else if joins_wave agents_config placed_agents agent_config then
        scan_requests agents_config rest ({[i]} ∪ placed_agents)
          (current_wave ++ [agent_config])
      else
        scan_requests agents_config rest placed_agents current_wave
  end.

(** [[config for i, config in enumerate(agents_config) if i not in placed_agents]]. *)
Definition remaining_agents (agents_config : list AgentConfig)
    (placed_agents : gset nat) : list AgentConfig :=
  (filter (λ p, p.1 ∉ placed_agents) (enumerate agents_config)).*2.

(** The [while len(placed_agents) < len(agents_config)] loop, with fuel:
    [None] means that the fuel ran out before the loop ended. *)
Fixpoint waves_loop (fuel : nat) (agents_config : list AgentConfig)
    (placed_agents : gset nat) (waves : list (list AgentConfig))
    : option (list (list AgentConfig)) :=
  match fuel with
  | O => None
  | S fuel' =>
      if decide (size placed_agents < length agents_config) then
        let '(current_wave, placed_agents') :=
          scan_requests agents_config (enumerate agents_config) placed_agents [] in
        match current_wave with
        | _ :: _ => waves_loop fuel' agents_config placed_agents' (waves ++ [current_wave])
        | [] =>
            match remaining_agents agents_config placed_agents' with
            | [] => Some waves
            | remaining => Some (waves ++ [remaining])
            end
        end
      else Some waves
  end.

(** [_organize_by_dependencies(agents_config)].  Every pass that does not
    end the loop places a request, so [S (length agents_config)] rounds are
    enough ([waves_loop_total] below). *)
Definition _organize_by_dependencies (agents_config : list AgentConfig)
    : list (list AgentConfig) :=
  default [] (waves_loop (S (length agents_config)) agents_config ∅ []).
(** ** Exceptions, results and the world *)

(** A raised [Exception]: [type(e).__name__] and [str(e)].  Only exceptions
    that [except Exception] catches are modelled. *)
Record Exn := { exn_type : string; exn_msg : string }.

Definition RuntimeError (msg : string) : Exn := {| exn_type := "RuntimeError"; exn_msg := msg |}.
Definition TypeError (msg : string) : Exn := {| exn_type := "TypeError"; exn_msg := msg |}.
Definition KeyError (msg : string) : Exn := {| exn_type := "KeyError"; exn_msg := msg |}.
Definition IndexError (msg : string) : Exn := {| exn_type := "IndexError"; exn_msg := msg |}.

(** What a tool returns: [{"error": {"code": ..., "message": ...}}] or a
    success dictionary. *)
Inductive ToolResult (A : Type) :=
  | ToolError (code message : string)
  | ToolSuccess (payload : A).
Arguments ToolError {A} code message.
Arguments ToolSuccess {A} payload.

(** Modelled from the spec: the enumeration [models.AgentStatus] is imported
    by the source and not part of it; its members are the states of the
    lifecycle state machine. *)
Inductive AgentStatus := PENDING | IDLE | ACTIVE | COMPLETED | TERMINATED.

(** Modelled from the spec: COMPLETED and TERMINATED are the terminal
    states. *)
Definition is_terminal (s : AgentStatus) : bool :=
  match s with
  | COMPLETED | TERMINATED => true
  | _ => false
  end.

(** Modelled from the spec: the persisted agent entity kept by
    [AgentService], with the fields the tools read and write. *)
Record Agent := {
  agent_id : string;
  agent_type : string;
  repository_path : string;
  capabilities : list string;
  configuration : gmap string PyVal;
  status : AgentStatus;
  claude_pid : option Z
}.

(** A call issued to a collaborator, with its arguments. *)
Inductive Event :=
  | CallCreateAgent (agent_type repository_path : string) (capabilities : list string)
      (initial_context : string) (configuration : option (gmap string PyVal))
  | CallSetupDependencyMonitoring (agent_id : string) (depends_on : list Dep)
  | CallJoinRoom (room_name agent_name agent_id : string)
  | CallCreateRoom (name repository_path : string)
  | CallCtxInfo (agent_type : string)
  | CallCtxError (agent_type : string)
  | CallSpawnClaude (workFolder prompt agent_type : string) (session_id : option string)
  | CallUpdateAgentStatus (agent_id : string) (status : AgentStatus)
      (agent_data : gmap string PyVal)
  | CallUpdateAgentPid (agent_id : string) (pid : Z)
  | CallGetAgentById (agent_id : string)
  | CallProbe (pid : Z)
  | CallCompleteAgent (agent_id : string)
  | CallTerminateAgent (agent_id : string).

(** The durable store of agent records and the calls issued so far. *)
Record World := {
  store : gmap string Agent;
  trace : list Event
}.

(** A computation either raises or returns, and changes the world. *)
Definition M (A : Type) : Type := World → (Exn + A) * World.

Global Instance M_ret : MRet M := λ A a w, (inr a, w).

Global Instance M_bind : MBind M := λ A B k m w,
  match m w with
  | (inl e, w') => (inl e, w')
  | (inr a, w') => k a w'
  end.

Definition raise {A} (e : Exn) : M A := λ w, (inl e, w).

(** [try: m  except Exception as e: handler e]. *)
Definition try_except {A} (m : M A) (handler : Exn → M A) : M A := λ w,
  match m w with
  | (inl e, w') => handler e w'
  | (inr a, w') => (inr a, w')
  end.

(** [try: m  except Exception: pass]. *)
Definition best_effort (m : M unit) : M unit := try_except m (λ _, mret tt).

Definition emit (ev : Event) : M unit := λ w,
  (inr tt, {| store := store w; trace := trace w ++ [ev] |}).

Definition modify_store (f : gmap string Agent → gmap string Agent) : M unit := λ w,
  (inr tt, {| store := f (store w); trace := trace w |}).

Definition get_store : M (gmap string Agent) := λ w, (inr (store w), w).

(** A collaborator call that raises when the environment says so. *)
Definition may_raise (failure : option Exn) : M unit :=
  match failure with
  | Some e => raise e
  | None => mret tt
  end.

(** The launcher was called. *)
Definition launched (ev : Event) : bool :=
  match ev with
  | CallSpawnClaude _ _ _ _ => true
  | _ => false
  end.

(** ** The agent record store, [AgentService] *)

Module AgentService.

(** Modelled from the spec: the dictionary answered by [create_agent], of
    which the source reads ["success"], ["agent_id"] and ["error"]. *)
Record CreateResult := {
  cr_success : bool;
  cr_agent_id : option string;
  cr_error : option string
}.

(** Modelled from the spec: a fresh record is PENDING and has no process
    identifier. *)
Definition new_agent (id agent_type repository_path : string)
    (capabilities : list string) (configuration : option (gmap string PyVal)) : Agent :=
  {| agent_id := id; agent_type := agent_type; repository_path := repository_path;
     capabilities := capabilities; configuration := default ∅ configuration;
     status := PENDING; claude_pid := None |}.

(** Modelled from the spec: [create] of the durable-record API.  The store
    either raises, reports a failure, or assigns the identity it reports
    and keeps a new record in status PENDING. *)
Definition create_agent (outcome : Exn + CreateResult)
    (agent_type repository_path : string) (capabilities : list string)
    (initial_context : string) (configuration : option (gmap string PyVal))
    : M CreateResult :=
  emit (CallCreateAgent agent_type repository_path capabilities initial_context configuration);;
  match outcome with
  | inl e => raise e
  | inr r =>
      (match cr_success r, cr_agent_id r with
       | true, Some id =>
           modify_store
             (insert id (new_agent id agent_type repository_path capabilities configuration))
       | _, _ => mret tt
       end);;
      mret r
  end.

(** Modelled from the spec: [read] of the durable-record API. *)
Definition get_agent_by_id (failure : option Exn) (id : string) : M (option Agent) :=
  emit (CallGetAgentById id);;
  may_raise failure;;
  st ← get_store;
  mret (st !! id).

(** Modelled from the spec: a status write, with the data merged into the
    configuration (the new entries win). *)
Definition set_status (s : AgentStatus) (data : gmap string PyVal) (a : Agent) : Agent :=
  {| agent_id := agent_id a; agent_type := agent_type a;
     repository_path := repository_path a; capabilities := capabilities a;
     configuration := data ∪ configuration a; status := s; claude_pid := claude_pid a |}.

(** Modelled from the spec: [update-status] of the durable-record API. *)
Definition update_agent_status (failure : option Exn) (id : string)
    (s : AgentStatus) (agent_data : gmap string PyVal) : M unit :=
  emit (CallUpdateAgentStatus id s agent_data);;
  may_raise failure;;
  modify_store (alter (set_status s agent_data) id).

(** Modelled from the spec: a write of the process identifier. *)
Definition set_pid (pid : Z) (a : Agent) : Agent :=
  {| agent_id := agent_id a; agent_type := agent_type a;
     repository_path := repository_path a; capabilities := capabilities a;
     configuration := configuration a; status := status a; claude_pid := Some pid |}.

(** Modelled from the spec: [update-process-id] of the durable-record API. *)
Definition update_agent_pid (failure : option Exn) (id : string) (pid : Z) : M unit :=
  emit (CallUpdateAgentPid id pid);;
  may_raise failure;;
  modify_store (alter (set_pid pid) id).

(** Modelled from the spec: the transition to COMPLETED that the status
    read persists when the process is gone. *)
Definition complete_agent (failure : option Exn) (id : string) : M unit :=
  emit (CallCompleteAgent id);;
  may_raise failure;;
  modify_store (alter (set_status COMPLETED ∅) id).

(** Modelled from the spec: a termination request moves a non-terminal
    agent to TERMINATED and answers [True]; for an unknown or an already
    terminal agent it answers [False] and changes nothing.  The call takes
    the agent id and nothing else, as the source calls it. *)
Definition terminate_agent (failure : option Exn) (id : string) : M bool :=
  emit (CallTerminateAgent id);;
  may_raise failure;;
  st ← get_store;
  match st !! id with
  | Some a =>
      if is_terminal (status a) then mret false
      else modify_store (alter (set_status TERMINATED ∅) id);; mret true
  | None => mret false
  end.

End AgentService.

(** ** The single-agent spawn: [_spawn_single_agent] *)

(** The handle [claude_result["process"]]: [poll()] answers [None] while the
    process runs, its return code once it has exited. *)
Record Process := { poll : option Z }.

(** The dictionary returned by the launcher [spawn_claude_with_profile]. *)
Record ClaudeResult := {
  claude_success : bool;
  claude_error : option string;
  claude_process : option Process;
  claude_result_pid : option Z
}.

(** The dictionary returned by [get_agent_tool_profile]. *)
Record ToolProfile := {
  allowed_tools : option (list string);
  description : string
}.

(** The outcome of [parse_ai_json(configuration)]. *)
Inductive ParseOutcome :=
  | ParseValueError (msg : string)
  | ParseRaises (e : Exn)
  | Parsed (configuration : option (gmap string PyVal)).

(** What the collaborators answer during one call of [_spawn_single_agent]. *)
Record SpawnEnv := {
  env_parse_ai_json : ParseOutcome;
  env_create_agent : Exn + AgentService.CreateResult;
  env_setup_dependency_monitoring : Exn + gmap string PyVal;
  env_spawn_claude_sync : bool;       (* [_spawn_claude_sync is not None] *)
  env_room : option Exn;              (* [join_room] or [create_room] raises *)
  env_profile : Exn + ToolProfile;
  env_format : Exn + string;          (* the prompt text, or [str.format] raises *)
  env_ctx : option Exn;               (* [ctx.info] and [ctx.error] raise *)
  env_spawn_claude : Exn + ClaudeResult;
  env_update_agent_status : option Exn;
  env_update_agent_pid : option Exn;
  env_now : string;                   (* [started_at] or [failed_at] *)
  env_created_at : string
}.

(** The success dictionary of [_spawn_single_agent]. *)
Record SpawnPayload := {
  sp_success : bool;
  sp_agent_id : string;
  sp_agent_type : string;
  sp_agent_name : string;
  sp_repository_path : string;
  sp_task_description : string;
  sp_auto_execute : bool;
  sp_claude_pid : option Z;
  sp_execution_info : gmap string PyVal;
  sp_dependency_info : gmap string PyVal;
  sp_coordination_room : string;
  sp_created_at : string
}.

(** The truth value of a process identifier: [None] and [0] are false. *)
Definition truthy_pid (pid : option Z) : bool :=
  match pid with
  | Some z => negb (z =? 0)%Z
  | None => false
  end.

(** The truth value of a string. *)
Definition nonempty (s : string) : bool := negb (bool_decide (s = "")).

(** [a or b] on strings. *)
Definition str_or (a b : string) : string := if nonempty a then a else b.

(** [coordination_room or f"{agent_type}-{agent_id[:8]}"]. *)
Definition room_name_of (coordination_room agent_type agent_id : string) : string :=
  str_or coordination_room (agent_type +:+ "-" +:+ String.substring 0 8 agent_id).

(** [', '.join(depends_on)] raises [TypeError] at the first item that is
    not a string. *)
Fixpoint join_check (i : nat) (depends_on : list Dep) : option Exn :=
  match depends_on with
  | [] => None
  | DStr _ :: rest => join_check (S i) rest
  | DInt _ :: _ =>
      Some (TypeError ("sequence item " +:+ pretty i +:+ ": expected str instance, int found"))
  end.

(** The checks made on the launcher's answer: either a [RuntimeError] is
    raised, with the local variable [claude_pid] as the checks leave it, or
    the process identifier is accepted. *)
Inductive Validation :=
  | Rejected (claude_pid : option Z) (e : Exn)
  | Validated (claude_pid : Z).

Definition validate_claude_result (claude_result : ClaudeResult) : Validation :=
  if negb (claude_success claude_result) then
    Rejected None (RuntimeError ("Claude CLI spawn failed: "
                     +:+ default "Unknown spawn error" (claude_error claude_result)))
  else
    match claude_process claude_result with
    | None => Rejected None (RuntimeError "No process object returned from spawn")
    | Some process =>
        match poll process with
        | Some returncode =>
            Rejected None
              (RuntimeError ("Process died immediately with code " +:+ pretty returncode))
        | None =>
            match claude_result_pid claude_result with
            | Some pid =>
                if (pid =? 0)%Z then
                  Rejected (Some pid)
                    (RuntimeError "Claude CLI spawn succeeded but no PID returned")
                else Validated pid
            | None =>
                Rejected None (RuntimeError "Claude CLI spawn succeeded but no PID returned")
            end
        end
    end.

(** The [except Exception as spawn_error] clause around the launcher call
    re-raises a [RuntimeError]. *)
Definition wrap_spawn_error (spawn_error : Exn) : Exn :=
  RuntimeError ("Spawn operation failed: " +:+ exn_type spawn_error +:+ ": " +:+ exn_msg spawn_error).

(** [updated_config]: the parsed configuration (or an empty dictionary)
    updated with the execution metadata of a successful launch. *)
Definition updated_config (parsed_configuration : option (gmap string PyVal))
    (claude_pid : Z) (room_name foundation_session_id : string)
    (depends_on : list Dep) (task_description : string) : gmap string PyVal :=
  {[ "claude_pid" := VInt claude_pid;
     "coordination_room" := VStr room_name;
     "foundation_session_id" := VStr foundation_session_id;
     "dependencies" := VList (val_of_dep <$> depends_on);
     "task_description" := VStr task_description;
     "spawn_success" := VBool true ]}
  ∪ default ∅ parsed_configuration.

(** [failed_config]: the parsed configuration (or an empty dictionary)
    updated with the metadata of a failed launch. *)
Definition failed_config (parsed_configuration : option (gmap string PyVal))
    (e : Exn) (room_name foundation_session_id : string)
    (depends_on : list Dep) (task_description : string) : gmap string PyVal :=
  {[ "spawn_error" := VStr (exn_msg e);
     "coordination_room" := VStr room_name;
     "foundation_session_id" := VStr foundation_session_id;
     "dependencies" := VList (val_of_dep <$> depends_on);
     "task_description" := VStr task_description;
     "spawn_success" := VBool false ]}
  ∪ default ∅ parsed_configuration.

(** [execution_info] after a successful launch. *)
Definition success_info (claude_pid : Z) (foundation_session_id room_name now : string)
    : gmap string PyVal :=
  {[ "claude_pid" := VInt claude_pid;
     "foundation_session_id" := VStr foundation_session_id;
     "coordination_room" := VStr room_name;
     "started_at" := VStr now;
     "spawn_success" := VBool true ]}.

(** [execution_info] after a failed launch. *)
Definition failure_info (e : Exn) (now : string) : gmap string PyVal :=
  {[ "error" := VStr ("Claude spawn failed: " +:+ exn_msg e);
     "spawn_success" := VBool false;
     "error_type" := VStr (exn_type e);
     "failed_at" := VStr now ]}.

(** [AgentStatus.ACTIVE if not depends_on else AgentStatus.IDLE]. *)
Definition status_after_launch (depends_on : list Dep) : AgentStatus :=
  match depends_on with
  | [] => ACTIVE
  | _ => IDLE
  end.

Section SpawnSingleAgent.

Variable env : SpawnEnv.
Variables agent_type repository_path task_description : string.
Variable initial_context : string.
Variable foundation_session_id : string.
Variable coordination_room : string.

Definition setup_dependency_monitoring (agent_id : string) (depends_on : list Dep)
    : M (gmap string PyVal) :=
  emit (CallSetupDependencyMonitoring agent_id depends_on);;
  match env_setup_dependency_monitoring env with
  | inl e => raise e
  | inr dependency_info => mret dependency_info
  end.

(** "Ensure coordination room exists": a failed join is swallowed, a failed
    creation is not. *)
Definition ensure_room (room_name agent_name agent_id : string) : M unit :=
  if nonempty coordination_room then
    best_effort
      (emit (CallJoinRoom room_name agent_name agent_id);; may_raise (env_room env))
  else
    emit (CallCreateRoom room_name repository_path);; may_raise (env_room env).

Definition get_agent_tool_profile : M ToolProfile :=
  match env_profile env with
  | inl e => raise e
  | inr profile => mret profile
  end.

(** The prompt: the f-string joins the dependency references, then
    [str.format] runs over the text. *)
Definition claude_prompt (depends_on : list Dep) : M string :=
  match join_check 0 depends_on with
  | Some e => raise e
  | None =>
      match env_format env with
      | inl e => raise e
      | inr text => mret text
      end
  end.

(** The body of the [try] that launches the process, up to the point where
    the [except Exception as e] clause would take over.  It gives the local
    variable [claude_pid] and either the exception that reaches that clause
    or [execution_info]. *)
Definition launch (agent_id room_name : string) (prompt : string)
    (parsed_configuration : option (gmap string PyVal)) (depends_on : list Dep)
    : M (option Z * (Exn + gmap string PyVal)) :=
  match env_profile env with
  | inl e => mret (None, inl e)
  | inr profile =>
      best_effort (emit (CallCtxInfo agent_type);; may_raise (env_ctx env));;
      emit (CallSpawnClaude repository_path prompt agent_type
              (if nonempty foundation_session_id then Some foundation_session_id else None));;
      match env_spawn_claude env with
      | inl spawn_error => mret (None, inl (wrap_spawn_error spawn_error))
      | inr claude_result =>
          match validate_claude_result claude_result with
          | Rejected claude_pid spawn_error =>
              mret (claude_pid, inl (wrap_spawn_error spawn_error))
          | Validated claude_pid =>
              let execution_info :=
                success_info claude_pid foundation_session_id room_name (env_now env) in
              best_effort
                (AgentService.update_agent_status (env_update_agent_status env) agent_id
                   (status_after_launch depends_on)
                   (updated_config parsed_configuration claude_pid room_name
                      foundation_session_id depends_on task_description));;
              best_effort
                (AgentService.update_agent_pid (env_update_agent_pid env) agent_id claude_pid);;
              mret (Some claude_pid, inr execution_info)
          end
      end
  end.

(** The [except Exception as e] clause of the launch: tell the client, mark
    the agent TERMINATED (best effort), give [execution_info]. *)
Definition spawn_failed (e : Exn) (agent_id room_name : string)
    (parsed_configuration : option (gmap string PyVal)) (depends_on : list Dep)
    : M (gmap string PyVal) :=
  best_effort (emit (CallCtxError agent_type);; may_raise (env_ctx env));;
  let execution_info := failure_info e (env_now env) in
  best_effort
    (AgentService.update_agent_status (env_update_agent_status env) agent_id TERMINATED
       (failed_config parsed_configuration e room_name foundation_session_id depends_on
          task_description));;
  mret execution_info.

(** The dictionary of the final [return]. *)
Definition payload (agent_id : string) (auto_execute : bool) (claude_pid : option Z)
    (execution_info dependency_info : gmap string PyVal) : SpawnPayload :=
  {| sp_success := true;
     sp_agent_id := agent_id;
     sp_agent_type := agent_type;
     sp_agent_name := agent_type +:+ "-agent";
     sp_repository_path := repository_path;
     sp_task_description := task_description;
     sp_auto_execute := auto_execute;
     sp_claude_pid := claude_pid;
     sp_execution_info := execution_info;
     sp_dependency_info := dependency_info;
     sp_coordination_room := room_name_of coordination_room agent_type agent_id;
     sp_created_at := env_created_at env |}.

(** Step 3 of the source, "Spawn actual Claude instance if auto_execute is
    True", for a created record. *)
Definition execute (agent_id : string) (parsed_configuration : option (gmap string PyVal))
    (depends_on : list Dep) (dependency_info : gmap string PyVal)
    : M (ToolResult SpawnPayload) :=
  if negb (env_spawn_claude_sync env) then
    mret (ToolError "SPAWN_FUNCTION_UNAVAILABLE"
            "spawn_claude_sync function not available due to import failure")
  else
    let room_name := room_name_of coordination_room agent_type agent_id in
    ensure_room room_name (agent_type +:+ "-agent") agent_id;;
    _ ← get_agent_tool_profile;
    prompt ← claude_prompt depends_on;
    '(claude_pid, outcome) ← launch agent_id room_name prompt parsed_configuration depends_on;
    match outcome with
    | inr execution_info =>
        mret (ToolSuccess (payload agent_id true claude_pid execution_info dependency_info))
    | inl e =>
        execution_info ← spawn_failed e agent_id room_name parsed_configuration depends_on;
        mret (ToolSuccess (payload agent_id true claude_pid execution_info dependency_info))
    end.

Definition _spawn_single_agent (capabilities : option (list string))
    (configuration : RawConfiguration) (depends_on : option (list Dep))
    (auto_execute : bool) : M (ToolResult SpawnPayload) :=
  let capabilities := default [] capabilities in
  let depends_on := default [] depends_on in
  try_except
    (match env_parse_ai_json env with
     | ParseValueError msg => mret (ToolError "INVALID_CONFIGURATION" msg)
     | ParseRaises e => raise e
     | Parsed parsed_configuration =>
         agent_result ← AgentService.create_agent (env_create_agent env) agent_type
                          repository_path capabilities initial_context parsed_configuration;
         if negb (AgentService.cr_success agent_result) then
           mret (ToolError "AGENT_DB_CREATION_FAILED"
                   (default "Unknown error" (AgentService.cr_error agent_result)))
         else
           match AgentService.cr_agent_id agent_result with
           | None => raise (KeyError "'agent_id'")
           | Some agent_id =>
               dependency_info ←
                 match depends_on with
                 | [] => mret ∅
                 | _ => setup_dependency_monitoring agent_id depends_on
                 end;
               if auto_execute then
                 execute agent_id parsed_configuration depends_on dependency_info
               else
                 mret (ToolSuccess (payload agent_id false None ∅ dependency_info))
           end
     end)
    (λ e, mret (ToolError "SPAWN_AGENT_FAILED" (exn_msg e))).

End SpawnSingleAgent.

(** ** Status read and termination: [get_agent_status], [terminate_agent] *)

(** What [psutil.Process(claude_pid)] and [process.is_running()] do. *)
Inductive ProbeOutcome :=
  | IsRunning
  | NotRunning
  | NoSuchProcess
  | AccessDenied
  | ProbeRaises (e : Exn).

(** The probe found no running process. *)
Definition process_gone (probe : ProbeOutcome) : bool :=
  match probe with
  | NotRunning | NoSuchProcess | AccessDenied => true
  | _ => false
  end.

(** What the collaborators answer during one call of [get_agent_status]. *)
Record StatusEnv := {
  env_get_agent_by_id : option Exn;
  env_probe : ProbeOutcome;
  env_complete_agent : option Exn
}.

(** The dictionary under ["agent"] in the answer of [get_agent_status]: the
    record as read, its ["status"] as the function leaves it, and the
    ["process_status"] key when the function adds it. *)
Record AgentView := {
  view_record : Agent;
  view_status : AgentStatus;
  view_process_status : option string
}.

Definition get_agent_status (env : StatusEnv) (agent_id : string)
    : M (ToolResult AgentView) :=
  try_except
    (result ← AgentService.get_agent_by_id (env_get_agent_by_id env) agent_id;
     match result with
     | None => mret (ToolError "AGENT_NOT_FOUND" "Agent not found")
     | Some result =>
         if truthy_pid (claude_pid result) then
           let pid := default 0%Z (claude_pid result) in
           emit (CallProbe pid);;
           match env_probe env with
           | IsRunning =>
               mret (ToolSuccess {| view_record := result; view_status := ACTIVE;
                                    view_process_status := Some "running" |})
           | NotRunning | NoSuchProcess | AccessDenied =>
               AgentService.complete_agent (env_complete_agent env) agent_id;;
               mret (ToolSuccess {| view_record := result; view_status := COMPLETED;
                                    view_process_status := Some "completed" |})
           | ProbeRaises e => raise e
           end
         else
           mret (ToolSuccess {| view_record := result; view_status := status result;
                                view_process_status := None |})
     end)
    (λ e, mret (ToolError "GET_STATUS_FAILED" (exn_msg e))).

(** The success dictionary of [terminate_agent]. *)
Record Termination := {
  term_agent_id : string;
  term_reason : string;
  term_status : string
}.

Definition terminate_agent (env_terminate_agent : option Exn) (agent_id reason : string)
    : M (ToolResult Termination) :=
  try_except
    (success ← AgentService.terminate_agent env_terminate_agent agent_id;
     if success : bool then
       mret (ToolSuccess {| term_agent_id := agent_id; term_reason := reason;
                            term_status := "terminated" |})
     else
       mret (ToolError "AGENT_NOT_FOUND" "Agent not found or already terminated"))
    (λ e, mret (ToolError "TERMINATE_FAILED" (exn_msg e))).

(** ** The batch coordinator: [spawn_agents_batch] *)

Inductive CoordinationMode := parallel | sequential | dependency_based.

(** An element of the parsed [agents] list. *)
Inductive JsonEntry :=
  | NotADict
  | Dict (agent_config : AgentConfig).

(** The ["error"] of a failure descriptor: [str(result)] for a raised
    exception, [result.get("error", "Unknown error")] for a dictionary. *)
Inductive ErrorValue :=
  | ErrorText (s : string)
  | ErrorObject (code message : string).

Record FailedAgent := {
  failed_index : nat;
  failed_agent_config : AgentConfig;
  failed_error : ErrorValue
}.

Record BatchResult := {
  total_requested : nat;
  successful : nat;
  failed : nat;
  successful_agents : list SpawnPayload;
  failed_agents : list FailedAgent
}.

(** The validation loop over [enumerate(agents_config)]: the first error,
    or the dictionaries. *)
Fixpoint validate_agents (i : nat) (agents : list JsonEntry)
    : (string * string) + list AgentConfig :=
  match agents with
  | [] => inr []
  | NotADict :: _ =>
      inl ("INVALID_AGENT_CONFIG", "Agent " +:+ pretty i +:+ " must be a dictionary")
  | Dict agent_config :: rest =>
      match cfg_agent_type agent_config, cfg_task_description agent_config with
      | None, _ =>
          inl ("MISSING_REQUIRED_FIELD",
               "Agent " +:+ pretty i +:+ " missing required field: agent_type")
      | Some _, None =>
          inl ("MISSING_REQUIRED_FIELD",
               "Agent " +:+ pretty i +:+ " missing required field: task_description")
      | Some _, Some _ =>
          match validate_agents (S i) rest with
          | inl err => inl err
          | inr configs => inr (agent_config :: configs)
          end
      end
  end.

(** One element of the [results] list: a dictionary or an exception. *)
Definition Outcome : Type := Exn + ToolResult SpawnPayload.

(** [agents_config[i]] raises [IndexError] when [i] is out of range. *)
Definition config_at (agents_config : list AgentConfig) (i : nat) : Exn + AgentConfig :=
  match agents_config !! i with
  | Some agent_config => inr agent_config
  | None => inl (IndexError "list index out of range")
  end.

(** The "Process results" loop over [enumerate(results)]. *)
Fixpoint process_results (agents_config : list AgentConfig)
    (results : list (nat * Outcome))
    (successful_agents : list SpawnPayload) (failed_agents : list FailedAgent)
    : Exn + (list SpawnPayload * list FailedAgent) :=
  match results with
  | [] => inr (successful_agents, failed_agents)
  | (i, result) :: rest =>
      let fail (error : ErrorValue) :=
        match config_at agents_config i with
        | inl e => inl e
        | inr agent_config =>
            process_results agents_config rest successful_agents
              (failed_agents ++ [{| failed_index := i; failed_agent_config := agent_config;
                                    failed_error := error |}])
        end in
      match result with
      | inl e => fail (ErrorText (exn_msg e))
      | inr (ToolSuccess p) =>
          if sp_success p then
            process_results agents_config rest (successful_agents ++ [p]) failed_agents
          else fail (ErrorText "Unknown error")
      | inr (ToolError code message) => fail (ErrorObject code message)
      end
  end.

Section Batch.

(** The awaited call of [_spawn_single_agent] for one request, as the
    coordinator sees it: it returns a dictionary or raises. *)
Variable spawn : AgentConfig → M (ToolResult SpawnPayload).

(** Runs the calls for [configs] and keeps every outcome, a raised
    exception included: the sequential loop with its [try]/[except], and
    [asyncio.gather] with [return_exceptions=True], whose result list
    follows the order of the tasks.  The calls of one [gather] take their
    effect on the world in task order. *)
Fixpoint outcomes (configs : list AgentConfig) (w : World) : list Outcome * World :=
  match configs with
  | [] => ([], w)
  | agent_config :: rest =>
      let '(result, w1) := spawn agent_config w in
      let '(results, w2) := outcomes rest w1 in
      (result :: results, w2)
  end.

(** [for wave in dependency_waves: ... results.extend(wave_results)]. *)
Fixpoint wave_outcomes (dependency_waves : list (list AgentConfig)) (w : World)
    : list Outcome * World :=
  match dependency_waves with
  | [] => ([], w)
  | wave :: rest =>
      let '(wave_results, w1) := outcomes wave w in
      let '(results, w2) := wave_outcomes rest w1 in
      (wave_results ++ results, w2)
  end.

(** The [results] list of each coordination mode. *)
Definition batch_results (coordination_mode : CoordinationMode)
    (agents_config : list AgentConfig) (w : World) : list Outcome * World :=
  match coordination_mode with
  | sequential => outcomes agents_config w
  | dependency_based => wave_outcomes (_organize_by_dependencies agents_config) w
  | parallel => outcomes agents_config w
  end.

Definition spawn_agents_batch_with (agents : list JsonEntry)
    (coordination_mode : CoordinationMode) (w : World)
    : ToolResult BatchResult * World :=
  match agents with
  | [] => (ToolError "EMPTY_AGENTS_LIST" "No agents specified", w)
  | _ =>
      match validate_agents 0 agents with
      | inl (code, message) => (ToolError code message, w)
      | inr agents_config =>
          let '(results, w') := batch_results coordination_mode agents_config w in
          match process_results agents_config (enumerate results) [] [] with
          | inl e => (ToolError "BATCH_SPAWN_FAILED" (exn_msg e), w')
          | inr (successful_agents, failed_agents) =>
              (ToolSuccess {| total_requested := length agents_config;
                              successful := length successful_agents;
                              failed := length failed_agents;
                              successful_agents := successful_agents;
                              failed_agents := failed_agents |}, w')
          end
      end
  end.

End Batch.

(** The call the coordinator makes for one request. *)
Definition spawn_request (envs : AgentConfig → SpawnEnv) (repository_path : string)
    (foundation_session_id coordination_room : option string) (agent_config : AgentConfig)
    : M (ToolResult SpawnPayload) :=
  match cfg_agent_type agent_config, cfg_task_description agent_config with
  | Some agent_type, Some task_description =>
      _spawn_single_agent (envs agent_config) agent_type repository_path task_description
        (default "" (cfg_initial_context agent_config))
        (default "" foundation_session_id) (default "" coordination_room)
        (Some (default [] (cfg_capabilities agent_config)))
        (cfg_configuration agent_config)
        (Some (default [] (cfg_depends_on agent_config)))
        true
  | None, _ => raise (KeyError "'agent_type'")
  | _, None => raise (KeyError "'task_description'")
  end.

(** [spawn_agents_batch] on the parsed [agents] list.  [envs] gives the
    collaborators' answers for each request. *)
Definition spawn_agents_batch (envs : AgentConfig → SpawnEnv) (repository_path : string)
    (agents : list JsonEntry) (foundation_session_id : option string)
    (coordination_mode : CoordinationMode) (max_concurrent : nat)
    (coordination_room : option string) (w : World) : ToolResult BatchResult * World :=
  spawn_agents_batch_with
    (spawn_request envs repository_path foundation_session_id coordination_room)
    agents coordination_mode w.

(** ** The concurrency gate: [async with semaphore] around each spawn call *)

(** A task of one [gather]: it waits for the semaphore, holds it while its
    spawn call is in flight, and has released it when the call is over. *)
Inductive TaskState := Waiting | InFlight | Finished.

Global Instance TaskState_eq_dec : EqDecision TaskState.
Proof. solve_decision. Defined.

(** The value of the semaphore and the tasks that share it. *)
Record Gate := {
  permits : nat;
  tasks : list TaskState
}.

(** [asyncio.Semaphore(value)] and [n] tasks, none of which has started. *)
Definition gate (value n : nat) : Gate :=
  {| permits := value; tasks := replicate n Waiting |}.

(** Parallel mode: [semaphore = asyncio.Semaphore(max_concurrent)], one task
    per request. *)
Definition parallel_gate (max_concurrent : nat) (agents_config : list AgentConfig) : Gate :=
  gate max_concurrent (length agents_config).

(** One wave: [asyncio.Semaphore(min(max_concurrent, len(wave)))], one task
    per request of the wave. *)
Definition wave_gate (max_concurrent : nat) (wave : list AgentConfig) : Gate :=
  gate (max_concurrent `min` length wave) (length wave).

(** A step of the event loop: a waiting task enters [async with] when the
    value is positive and takes one permit; a task in flight leaves it,
    whether its call returned or raised, and gives the permit back. *)
Inductive gate_step : Gate → Gate → Prop :=
  | acquire g i :
      tasks g !! i = Some Waiting →
      0 < permits g →
      gate_step g {| permits := permits g - 1; tasks := <[i := InFlight]> (tasks g) |}
  | release g i :
      tasks g !! i = Some InFlight →
      gate_step g {| permits := permits g + 1; tasks := <[i := Finished]> (tasks g) |}.

(** The number of spawn calls in flight. *)
Definition in_flight (g : Gate) : nat :=
  length (filter (λ t, t = InFlight) (tasks g)).

(** ** The tools [spawn_agent] and [list_agents] *)

(** What [parse_json_list] gives for a list parameter: an error dictionary,
    which [check_parsing_error] recognises, or the value, [None] or a
    list. *)
Inductive ParsedList (A : Type) :=
  | ListError (code message : string)
  | ListValue (value : option (list A)).
Arguments ListError {A} code message.
Arguments ListValue {A} value.

(** [spawn_agent] on the outcomes of the two calls of [parse_json_list],
    which may raise: the tool has no [try] of its own. *)
Definition spawn_agent (env : SpawnEnv)
    (agent_type repository_path task_description : string)
    (capabilities : Exn + ParsedList string) (configuration : RawConfiguration)
    (depends_on : Exn + ParsedList Dep) (foundation_session_id : option string)
    : M (ToolResult SpawnPayload) :=
  match capabilities with
  | inl e => raise e
  | inr (ListError code message) => mret (ToolError code message)
  | inr (ListValue parsed_capabilities) =>
      match depends_on with
      | inl e => raise e
      | inr (ListError code message) => mret (ToolError code message)
      | inr (ListValue parsed_depends_on) =>
          _spawn_single_agent env agent_type repository_path task_description ""
            (default "" foundation_session_id) "" parsed_capabilities configuration
            parsed_depends_on true
      end
  end.

(** A dictionary of the list answered by [AgentService.list_agents], of
    which the tool reads ["status"] and ["agent_type"]. *)
Record AgentRow := {
  row_agent_id : string;
  row_status : option string;
  row_agent_type : option string
}.

(** A truthy answer of [AgentService.list_agents], of which the tool reads
    ["agents"] and ["count"]. *)
Record ListAnswer := {
  answer_agents : option (list AgentRow);
  answer_count : option Z
}.

(** What the collaborators answer during one call of [list_agents]:
    [parse_json_list]; the lookup [AgentStatus(status)], [None] standing for
    its [ValueError]; and the service, whose answer may be falsy. *)
Record ListEnv := {
  env_status_filter : Exn + ParsedList string;
  env_status_of : string → option AgentStatus;
  env_list_agents :
    string → option (list AgentStatus) → option string → Exn + option ListAnswer
}.

Record Statistics := {
  total_agents : Z;
  filtered_agents : nat;
  by_status : gmap string nat;
  by_type : gmap string nat
}.

Record FiltersApplied := {
  applied_status_filter : option (list string);
  applied_agent_type_filter : option string;
  applied_include_completed : bool;
  applied_limit : Z
}.

(** The success dictionary of [list_agents]. *)
Record Listing := {
  listing_repository_path : string;
  listing_agents : list AgentRow;
  statistics : Statistics;
  filters_applied : FiltersApplied
}.

(** [[AgentStatus(status) for status in parsed_status_filter]]: the
    members, or the first string that is not a value of the enumeration. *)
Fixpoint status_enums (status_of : string → option AgentStatus) (statuses : list string)
    : string + list AgentStatus :=
  match statuses with
  | [] => inr []
  | s :: rest =>
      match status_of s with
      | None => inl s
      | Some member =>
          match status_enums status_of rest with
          | inl bad => inl bad
          | inr members => inr (member :: members)
          end
      end
  end.

(** The slice [l[:limit]], also for a negative [limit]. *)
Definition slice_to {A} (limit : Z) (l : list A) : list A :=
  if (0 <=? limit)%Z then take (Z.to_nat limit) l
  else take (length l - Z.to_nat (- limit)) l.

(** [counts[key] = counts.get(key, 0) + 1]. *)
Definition count_key (key : string) (counts : gmap string nat) : gmap string nat :=
  <[key := S (default 0 (counts !! key))]> counts.

Definition status_key (agent : AgentRow) : string := default "unknown" (row_status agent).

Definition type_key (agent : AgentRow) : string := default "unknown" (row_agent_type agent).

(** The loop "Generate statistics". *)
Definition count_rows (agents_list : list AgentRow) : gmap string nat * gmap string nat :=
  foldl (λ '(status_counts, type_counts) agent,
           (count_key (status_key agent) status_counts,
            count_key (type_key agent) type_counts))
        (∅, ∅) agents_list.

Definition list_agents (env : ListEnv) (repository_path : string)
    (agent_type_filter : option string) (include_completed : bool) (limit : Z)
    : ToolResult Listing :=
  match env_status_filter env with
  | inl e => ToolError "LIST_AGENTS_FAILED" (exn_msg e)
  | inr (ListError code message) => ToolError code message
  | inr (ListValue parsed_status_filter) =>
      let status_enum_filter :=
        match parsed_status_filter with
        | Some (s :: rest) =>
            match status_enums (env_status_of env) (s :: rest) with
            | inl bad => inl bad
            | inr members => inr (Some members)
            end
        | _ => inr None
        end in
      match status_enum_filter with
      | inl bad =>
          ToolError "INVALID_STATUS_FILTER"
            ("Invalid status: '" +:+ bad +:+ "' is not a valid AgentStatus")
      | inr status_enum_filter =>
          match env_list_agents env repository_path status_enum_filter agent_type_filter with
          | inl e => ToolError "LIST_AGENTS_FAILED" (exn_msg e)
          | inr None => ToolError "AGENT_LIST_FAILED" "Failed to retrieve agents"
          | inr (Some all_agents) =>
              let agents_list := default [] (answer_agents all_agents) in
              let agents_list :=
                if include_completed then agents_list
                else filter (λ agent, row_status agent ≠ Some "completed") agents_list in
              let agents_list :=
                if (limit =? 0)%Z then agents_list else slice_to limit agents_list in
              let '(status_counts, type_counts) := count_rows agents_list in
              ToolSuccess
                {| listing_repository_path := repository_path;
                   listing_agents := agents_list;
                   statistics :=
                     {| total_agents := default 0%Z (answer_count all_agents);
                        filtered_agents := length agents_list;
                        by_status := status_counts;
                        by_type := type_counts |};
                   filters_applied :=
                     {| applied_status_filter := parsed_status_filter;
                        applied_agent_type_filter := agent_type_filter;
                        applied_include_completed := include_completed;
                        applied_limit := limit |} |}
          end
      end
  end.

(** ** Notions used to state the properties *)

(** The configurations of [todo] whose index lies in [S]. *)
Definition picked (S : gset nat) (todo : list (nat * AgentConfig)) : list AgentConfig :=
  (filter (λ p, p.1 ∈ S) todo).*2.

(** The indices of a batch. *)
Definition indices (agents_config : list AgentConfig) : gset nat :=
  list_to_set (seq 0 (length agents_config)).

(** The requests in the order in which the coordinator runs them. *)
Definition spawn_order (coordination_mode : CoordinationMode)
    (agents_config : list AgentConfig) : list AgentConfig :=
  match coordination_mode with
  | dependency_based => concat (_organize_by_dependencies agents_config)
  | _ => agents_config
  end.

(** The store did not create the record: it raised or answered without a
    true ["success"]. *)
Definition creation_failed (env : SpawnEnv) : Prop :=
  match env_create_agent env with
  | inl _ => True
  | inr agent_result => AgentService.cr_success agent_result = false
  end.

(** The error dictionary returned when the record is not created. *)
Definition creation_error (env : SpawnEnv) : string * string :=
  match env_create_agent env with
  | inl e => ("SPAWN_AGENT_FAILED", exn_msg e)
  | inr agent_result =>
      ("AGENT_DB_CREATION_FAILED", default "Unknown error" (AgentService.cr_error agent_result))
  end.

(** The record is created: the configuration parses and the store answers
    success with the identity it assigned. *)
Definition record_created (env : SpawnEnv) (agent_id : string)
    (parsed_configuration : option (gmap string PyVal)) : Prop :=
  env_parse_ai_json env = Parsed parsed_configuration
  ∧ ∃ error, env_create_agent env
             = inr {| AgentService.cr_success := true;
                      AgentService.cr_agent_id := Some agent_id;
                      AgentService.cr_error := error |}.

(** The steps between the creation of the record and the launching [try]
    go through: dependency registration does not raise, the launcher is
    bound, the room is joined (best effort) or created, the tool profile is
    found and the prompt is built. *)
Record launcher_reached (env : SpawnEnv) (coordination_room : string)
    (depends_on : list Dep) (dependency_info : gmap string PyVal) (prompt : string)
    : Prop := {
  reached_dependencies :
    match depends_on with
    | [] => dependency_info = ∅
    | _ => env_setup_dependency_monitoring env = inr dependency_info
    end;
  reached_available : env_spawn_claude_sync env = true;
  reached_room : nonempty coordination_room = true ∨ env_room env = None;
  reached_profile : ∃ profile, env_profile env = inr profile;
  reached_join : join_check 0 depends_on = None;
  reached_format : env_format env = inr prompt
}.

(** The calls made before the launching [try] is entered. *)
Definition calls_before_launch
    (agent_type repository_path initial_context coordination_room : string)
    (capabilities : list string) (parsed_configuration : option (gmap string PyVal))
    (depends_on : list Dep) (agent_id : string) : list Event :=
  [CallCreateAgent agent_type repository_path capabilities initial_context parsed_configuration]
  ++ match depends_on with
     | [] => []
     | _ => [CallSetupDependencyMonitoring agent_id depends_on]
     end
  ++ [if nonempty coordination_room
      then CallJoinRoom (room_name_of coordination_room agent_type agent_id)
             (agent_type +:+ "-agent") agent_id
      else CallCreateRoom (room_name_of coordination_room agent_type agent_id)
             repository_path].


(** The store after a best-effort write: unchanged when the write raises. *)
Definition best_effort_write (failure : option Exn) (f : Agent → Agent) (agent_id : string)
    (st : gmap string Agent) : gmap string Agent :=
  match failure with
  | None => alter f agent_id st
  | Some _ => st
  end.

(** The record holds the string [s] in one of its fields or as a value of
    its configuration. *)
Definition mentions (a : Agent) (s : string) : Prop :=
  agent_id a = s ∨ agent_type a = s ∨ repository_path a = s ∨ s ∈ capabilities a
  ∨ ∃ key, configuration a !! key = Some (VStr s).

(** [dep] names the request [other_config] at index [j]: by its id, by its
    index or by its type. *)
Definition names (j : nat) (other_config : AgentConfig) (dep : Dep) : bool :=
  get_eq_dep (cfg_agent_id other_config) dep
  || bool_decide (pretty j = str_dep dep)
  || get_eq_dep (cfg_agent_type other_config) dep.

(** No request of the batch is named by [dep]. *)
Definition unresolvable (agents_config : list AgentConfig) (dep : Dep) : bool :=
  forallb (λ '(j, other_config), negb (names j other_config dep)) (enumerate agents_config).

(** Every dependency of every request is the index, as text or as a
    number, of a request that comes earlier in the batch. *)
Definition refers_back (agents_config : list AgentConfig) : bool :=
  forallb
    (λ '(i, agent_config),
       forallb (λ dep, existsb (λ j, bool_decide (pretty j = str_dep dep)) (seq 0 i))
         (default [] (cfg_depends_on agent_config)))
    (enumerate agents_config).

(** The request has no dependency: the key is absent or its list is empty. *)
Definition independent (agent_config : AgentConfig) : bool :=
  match default [] (cfg_depends_on agent_config) with
  | [] => true
  | _ => false
  end.

(** One of the dependencies of the request names no request of the batch. *)
Definition waits_forever (agents_config : list AgentConfig) (agent_config : AgentConfig)
    : bool :=
  existsb (unresolvable agents_config) (default [] (cfg_depends_on agent_config)).

(** The number of calls of a kind among [calls]. *)
Definition count (kind : Event → bool) (calls : list Event) : nat :=
  length (List.filter kind calls).

Definition creation (ev : Event) : bool :=
  match ev with CallCreateAgent _ _ _ _ _ => true | _ => false end.

Definition room_call (ev : Event) : bool :=
  match ev with CallJoinRoom _ _ _ | CallCreateRoom _ _ => true | _ => false end.

Definition status_write (ev : Event) : bool :=
  match ev with CallUpdateAgentStatus _ _ _ => true | _ => false end.

Definition pid_write (ev : Event) : bool :=
  match ev with CallUpdateAgentPid _ _ => true | _ => false end.


(** The environment [env] with another answer of the room service. *)
Definition set_env_room (room : option Exn) (env : SpawnEnv) : SpawnEnv :=
  {| env_parse_ai_json := env_parse_ai_json env;
     env_create_agent := env_create_agent env;
     env_setup_dependency_monitoring := env_setup_dependency_monitoring env;
     env_spawn_claude_sync := env_spawn_claude_sync env;
     env_room := room;
     env_profile := env_profile env;
     env_format := env_format env;
     env_ctx := env_ctx env;
     env_spawn_claude := env_spawn_claude env;
     env_update_agent_status := env_update_agent_status env;
     env_update_agent_pid := env_update_agent_pid env;
     env_now := env_now env;
     env_created_at := env_created_at env |}.

(** The message of the [TypeError] that [str.join] raises for a number at
    position [i]. *)
Definition join_error (i : nat) : string :=
  "sequence item " +:+ pretty i +:+ ": expected str instance, int found".

(** The codes of the error dictionaries of [get_agent_status] and of
    [terminate_agent]. *)
Definition status_error_codes : list string := ["AGENT_NOT_FOUND"; "GET_STATUS_FAILED"].

Definition terminate_error_codes : list string := ["AGENT_NOT_FOUND"; "TERMINATE_FAILED"].

(** A liveness probe; a write of the store asked for by a status read. *)
Definition probe (ev : Event) : bool :=
  match ev with
  | CallProbe _ => true
  | _ => false
  end.

Definition completion (ev : Event) : bool :=
  match ev with
  | CallCompleteAgent _ => true
  | _ => false
  end.

(** A request dictionary holds both required fields; an entry of the
    [agents] list that the validation loop turns down. *)
Definition has_required_fields (agent_config : AgentConfig) : bool :=
  match cfg_agent_type agent_config, cfg_task_description agent_config with
  | Some _, Some _ => true
  | _, _ => false
  end.

Definition invalid_entry (entry : JsonEntry) : bool :=
  match entry with
  | NotADict => true
  | Dict agent_config => negb (has_required_fields agent_config)
  end.

Definition validation_error_codes : list string :=
  ["INVALID_AGENT_CONFIG"; "MISSING_REQUIRED_FIELD"].

(** The outcome of a spawn call as the result loop reads it: a success
    dictionary, or a failure with the value reported under ["error"]. *)
Definition success_of (result : Outcome) : option SpawnPayload :=
  match result with
  | inr (ToolSuccess p) => if sp_success p then Some p else None
  | _ => None
  end.

Definition failure_of (result : Outcome) : option ErrorValue :=
  match result with
  | inl e => Some (ErrorText (exn_msg e))
  | inr (ToolError code message) => Some (ErrorObject code message)
  | inr (ToolSuccess p) => if sp_success p then None else Some (ErrorText "Unknown error")
  end.


(** Every task of the gather is through with its call. *)
Definition all_finished (g : Gate) : Prop := Forall (λ t, t = Finished) (tasks g).

(** The steps the tasks still have to take: two for a waiting task, one for
    a task in flight. *)
Definition steps_left (g : Gate) : nat :=
  2 * length (filter (λ t, t = Waiting) (tasks g)) + in_flight g.

(** The number of agents of a list that a dictionary of counts accounts
    for, and the number of agents of a list filed under a key. *)
Definition counted (counts : gmap string nat) : nat :=
  map_fold (λ _ n total, n + total) 0 counts.

Definition filed_under (key_of : AgentRow → string) (key : string)
    (agents_list : list AgentRow) : nat :=
  length (filter (λ agent, key_of agent = key) agents_list).

(** A call of [join_room]. *)
Definition room_join (ev : Event) : bool :=
  match ev with
  | CallJoinRoom _ _ _ => true
  | _ => false
  end.


(** ** Sample inputs *)

Definition request (agent_type : string) (depends_on : option (list Dep)) : AgentConfig :=
  {| cfg_agent_type := Some agent_type;
     cfg_task_description := Some ("task of " +:+ agent_type);
     cfg_agent_id := None;
     cfg_capabilities := None;
     cfg_initial_context := None;
     cfg_configuration := RawNone;
     cfg_depends_on := depends_on |}.

Definition created (id : string) : Exn + AgentService.CreateResult :=
  inr {| AgentService.cr_success := true; AgentService.cr_agent_id := Some id;
         AgentService.cr_error := None |}.

Definition not_created (error : string) : Exn + AgentService.CreateResult :=
  inr {| AgentService.cr_success := false; AgentService.cr_agent_id := None;
         AgentService.cr_error := Some error |}.

Definition running_process (pid : Z) : Exn + ClaudeResult :=
  inr {| claude_success := true; claude_error := None;
         claude_process := Some {| poll := None |}; claude_result_pid := Some pid |}.

Definition launch_refused (error : string) : Exn + ClaudeResult :=
  inr {| claude_success := false; claude_error := Some error;
         claude_process := None; claude_result_pid := None |}.

(** An environment in which every collaborator answers, except as the
    three arguments say. *)
Definition sample_env (create_agent : Exn + AgentService.CreateResult)
    (spawn_claude : Exn + ClaudeResult) (update_agent_status : option Exn) : SpawnEnv :=
  {| env_parse_ai_json := Parsed None;
     env_create_agent := create_agent;
     env_setup_dependency_monitoring := inr {[ "success" := VBool true ]};
     env_spawn_claude_sync := true;
     env_room := None;
     env_profile := inr {| allowed_tools := None; description := "Unknown agent type" |};
     env_format := inr "prompt";
     env_ctx := None;
     env_spawn_claude := spawn_claude;
     env_update_agent_status := update_agent_status;
     env_update_agent_pid := None;
     env_now := "2025-07-01T10:00:00+00:00";
     env_created_at := "2025-07-01T10:00:01+00:00" |}.

Definition empty_world : World := {| store := ∅; trace := [] |}.

(** A world with one stored agent. *)
Definition stored_agent (id : string) (s : AgentStatus) (pid : option Z) : Agent :=
  {| agent_id := id; agent_type := "backend"; repository_path := "/repo";
     capabilities := []; configuration := ∅; status := s; claude_pid := pid |}.

Definition world_with (a : Agent) : World :=
  {| store := {[ agent_id a := a ]}; trace := [] |}.

(** The batch of the specification's example: A has no dependency, B
    depends on A by its index 0, C on an id that no request has. *)
Definition example_batch (index_of_A : Dep) : list AgentConfig :=
  [request "A" None; request "B" (Some [index_of_A]); request "C" (Some [DStr "zzz"])].

(** A batch whose first request depends on the second, and answers of the
    collaborators under which the store refuses the record of the second
    request (the tester) and everything works for the first. *)
Definition reordered_batch : list AgentConfig :=
  [request "implementer" (Some [DStr "1"]); request "tester" None].

Definition reordered_envs (agent_config : AgentConfig) : SpawnEnv :=
  if bool_decide (cfg_agent_type agent_config = Some "tester")
  then sample_env (not_created "database is locked") (running_process 4343) None
  else sample_env (created "agent-1111-aaaa") (running_process 4242) None.

(** Environments for one spawn of a backend agent: the store refuses the
    record; the store raises; the launcher reports a failure; the launcher
    reports a failure and the store refuses the status write; the launch
    works; the launch works and the store refuses the status write. *)
Definition env_refused : SpawnEnv :=
  sample_env (not_created "database is locked") (running_process 4242) None.

Definition env_store_down : SpawnEnv :=
  sample_env (inl (RuntimeError "connection refused")) (running_process 4242) None.



Definition env_launch_works : SpawnEnv :=
  sample_env (created "agent-1111-aaaa") (running_process 4242) None.


(** One spawn of a backend agent with two dependencies, from an empty
    world. *)
Definition sample_spawn (env : SpawnEnv) : (Exn + ToolResult SpawnPayload) * World :=
  _spawn_single_agent env "backend" "/repo" "build the API" "" "" "" None RawNone
    (Some [DStr "agent-0000-ffff"; DStr "architect"]) true empty_world.

(** A stored agent whose process was launched with identifier 4242, and a
    stored agent that was never launched. *)
Definition launched_agent : Agent := stored_agent "agent-1111-aaaa" ACTIVE (Some 4242%Z).

Definition unlaunched_agent : Agent := stored_agent "agent-2222-bbbb" PENDING None.

(** A status read during which the store answers and psutil knows no such
    process. *)
Definition env_process_unknown : StatusEnv :=
  {| env_get_agent_by_id := None; env_probe := NoSuchProcess; env_complete_agent := None |}.

(** An environment in which the launcher is not bound
    ([_spawn_claude_sync is None]). *)
Definition env_no_launcher : SpawnEnv :=
  {| env_parse_ai_json := Parsed None;
     env_create_agent := created "agent-1111-aaaa";
     env_setup_dependency_monitoring := inr {[ "success" := VBool true ]};
     env_spawn_claude_sync := false;
     env_room := None;
     env_profile := inr {| allowed_tools := None; description := "Unknown agent type" |};
     env_format := inr "prompt";
     env_ctx := None;
     env_spawn_claude := running_process 4242;
     env_update_agent_status := None;
     env_update_agent_pid := None;
     env_now := "2025-07-01T10:00:00+00:00";
     env_created_at := "2025-07-01T10:00:01+00:00" |}.

(** A status read during which the store answers and the process runs. *)
Definition env_process_running : StatusEnv :=
  {| env_get_agent_by_id := None; env_probe := IsRunning; env_complete_agent := None |}.

(** Answers of the collaborators under which every record is created and
    every launch is refused. *)
Definition refused_launch_envs (agent_config : AgentConfig) : SpawnEnv :=
  sample_env (created ("agent-" +:+ default "" (cfg_agent_type agent_config)))
    (launch_refused "claude: command not found") None.

(** A listing service that knows three agents, and a call of [list_agents]
    on it. *)
Definition sample_rows : list AgentRow :=
  [{| row_agent_id := "agent-1111-aaaa"; row_status := Some "active";
      row_agent_type := Some "backend" |};
   {| row_agent_id := "agent-2222-bbbb"; row_status := Some "completed";
      row_agent_type := Some "tester" |};
   {| row_agent_id := "agent-3333-cccc"; row_status := Some "active";
      row_agent_type := None |}].

(** A sample lookup of the enumeration by value, for the calls below. *)
Definition status_of_string (s : string) : option AgentStatus :=
  if bool_decide (s = "pending") then Some PENDING
  else if bool_decide (s = "idle") then Some IDLE
  else if bool_decide (s = "active") then Some ACTIVE
  else if bool_decide (s = "completed") then Some COMPLETED
  else if bool_decide (s = "terminated") then Some TERMINATED
  else None.

Definition sample_list_env (status_filter : option (list string)) : ListEnv :=
  {| env_status_filter := inr (ListValue status_filter);
     env_status_of := status_of_string;
     env_list_agents := λ _ _ _,
       inr (Some {| answer_agents := Some sample_rows; answer_count := Some 3%Z |}) |}.

(** * Properties *)

(** ** The wave scheduler *)

Lemma enumerate_snd {A} (l : list A) : (enumerate l).*2 = l.
Proof.
  unfold enumerate. rewrite fmap_imap.
  rewrite (imap_ext _ (const id)) by done.
  rewrite imap_const. apply list_fmap_id.
Qed.

Lemma enumerate_fst {A} (l : list A) : (enumerate l).*1 = seq 0 (length l).
Proof.
  unfold enumerate. rewrite fmap_imap.
  apply list_eq. intros i. rewrite list_lookup_imap.
  destruct (l !! i) as [x|] eqn:Hi; simpl.
  - apply lookup_lt_Some in Hi. symmetry. by apply lookup_seq_lt.
  - apply lookup_ge_None in Hi. symmetry. apply lookup_ge_None.
    by rewrite length_seq.
Qed.


Lemma picked_cons_in S i c todo : i ∈ S → picked S ((i, c) :: todo) = c :: picked S todo.
Proof. intros Hi. unfold picked. by rewrite filter_cons_True. Qed.

Lemma picked_cons_out S i c todo : i ∉ S → picked S ((i, c) :: todo) = picked S todo.
Proof. intros Hi. unfold picked. by rewrite filter_cons_False. Qed.

Lemma picked_ext S1 S2 todo :
  (∀ i, i ∈ todo.*1 → i ∈ S1 ↔ i ∈ S2) → picked S1 todo = picked S2 todo.
Proof.
  induction todo as [|[i c] todo IH]; intros Hext; [done|].
  assert (picked S1 todo = picked S2 todo) as Htl.
  { apply IH. intros j Hj. apply Hext. simpl. by apply list_elem_of_further. }
  destruct (decide (i ∈ S1)) as [Hi|Hi].
  - rewrite !picked_cons_in; [by f_equal|apply Hext; [simpl; left|done]|done].
  - rewrite !picked_cons_out; [done| |done].
    intros Hi2. apply Hi, Hext; [simpl; left|done].
Qed.

Lemma picked_empty S todo :
  (∀ i, i ∈ todo.*1 → i ∉ S) → picked S todo = [].
Proof.
  induction todo as [|[i c] todo IH]; intros Hno; [done|].
  rewrite picked_cons_out.
  - apply IH. intros j Hj. apply Hno. simpl. by apply list_elem_of_further.
  - apply Hno. simpl. left.
Qed.

Lemma picked_split S S' todo :
  S ⊆ S' → picked S' todo ≡ₚ picked S todo ++ picked (S' ∖ S) todo.
Proof.
  intros Hsub. induction todo as [|[i c] todo IH]; [done|].
  destruct (decide (i ∈ S)) as [Hi|Hi].
  - rewrite (picked_cons_in S'), (picked_cons_in S), (picked_cons_out (S' ∖ S));
      [|set_solver..].
    simpl. by f_equiv.
  - destruct (decide (i ∈ S')) as [Hi'|Hi'].
    + rewrite (picked_cons_in S'), (picked_cons_out S), (picked_cons_in (S' ∖ S));
        [|set_solver..].
      rewrite IH. apply Permutation_middle.
    + rewrite (picked_cons_out S'), (picked_cons_out S), (picked_cons_out (S' ∖ S));
        [done|set_solver..].
Qed.

(** One pass only adds indices of the requests it visits, and the wave it
    builds is made of the requests it adds, in the order of the list. *)
Lemma scan_requests_spec agents_config todo placed wave :
  NoDup todo.*1 →
  ∃ wave' placed',
    scan_requests agents_config todo placed wave = (wave', placed')
    ∧ placed ⊆ placed'
    ∧ placed' ⊆ placed ∪ list_to_set todo.*1
    ∧ wave' = wave ++ picked (placed' ∖ placed) todo.
Proof.
  revert placed wave.
  induction todo as [|[i c] todo IH]; intros placed wave Hnd; simpl.
  - exists wave, placed. split_and!; [done|done|set_solver|].
    by rewrite app_nil_r.
  - simpl in Hnd. apply NoDup_cons in Hnd as [Hi Hnd].
    case_bool_decide as Hin.
    + destruct (IH placed wave Hnd) as (wave' & placed' & -> & Hsub & Hsup & ->).
      exists (wave ++ picked (placed' ∖ placed) todo), placed'.
      split_and!; [done|done|set_solver|].
      rewrite picked_cons_out; [done|set_solver].
    + destruct (joins_wave agents_config placed c).
      * destruct (IH ({[i]} ∪ placed) (wave ++ [c]) Hnd)
          as (wave' & placed' & -> & Hsub & Hsup & ->).
        exists ((wave ++ [c]) ++ picked (placed' ∖ ({[i]} ∪ placed)) todo), placed'.
        split_and!; [done|set_solver|set_solver|].
        rewrite picked_cons_in by set_solver.
        rewrite <- app_assoc. simpl. do 2 f_equal.
        apply picked_ext. intros j Hj.
        assert (j ≠ i) by (intros ->; done). set_solver.
      * destruct (IH placed wave Hnd) as (wave' & placed' & -> & Hsub & Hsup & ->).
        exists (wave ++ picked (placed' ∖ placed) todo), placed'.
        split_and!; [done|done|set_solver|].
        rewrite picked_cons_out; [done|].
        assert (i ∉ (list_to_set todo.*1 : gset nat)) by (by rewrite elem_of_list_to_set).
        set_solver.
Qed.

Lemma indices_size agents_config : size (indices agents_config) = length agents_config.
Proof.
  unfold indices. rewrite size_list_to_set by apply NoDup_seq. apply length_seq.
Qed.

Lemma picked_full S todo : (∀ i, i ∈ todo.*1 → i ∈ S) → picked S todo = todo.*2.
Proof.
  induction todo as [|[i c] todo IH]; intros Hall; [done|].
  rewrite picked_cons_in by (apply Hall; simpl; left).
  simpl. f_equal. apply IH. intros j Hj. apply Hall. simpl. by apply list_elem_of_further.
Qed.

Lemma picked_remaining agents_config placed :
  picked placed (enumerate agents_config) ++ remaining_agents agents_config placed
  ≡ₚ agents_config.
Proof.
  unfold picked, remaining_agents. rewrite <- fmap_app.
  rewrite (filter_app_complement (λ p : nat * AgentConfig, p.1 ∈ placed)).
  by rewrite enumerate_snd.
Qed.

(** The loop ends within the fuel it is given and its waves hold every
    request once. *)
Lemma waves_loop_spec fuel agents_config placed waves :
  placed ⊆ indices agents_config →
  concat waves ≡ₚ picked placed (enumerate agents_config) →
  length agents_config - size placed < fuel →
  ∃ ws, waves_loop fuel agents_config placed waves = Some ws ∧ concat ws ≡ₚ agents_config.
Proof.
  revert placed waves.
  induction fuel as [|fuel IH]; intros placed waves Hsub Hperm Hfuel; [lia|].
  simpl. case_decide as Hsize.
  - destruct (scan_requests_spec agents_config (enumerate agents_config) placed [])
      as (wave' & placed' & -> & Hsub' & Hsup & Hwave).
    { rewrite enumerate_fst. apply NoDup_seq. }
    rewrite enumerate_fst in Hsup. fold (indices agents_config) in Hsup.
    simpl in Hwave.
    assert (placed' ⊆ indices agents_config) as Hin by set_solver.
    assert (concat waves ++ wave' ≡ₚ picked placed' (enumerate agents_config)) as Hperm'.
    { rewrite Hwave, Hperm. symmetry. by apply picked_split. }
    destruct wave' as [|c wave'].
    + rewrite app_nil_r in Hperm'.
      pose proof (picked_remaining agents_config placed') as Hrem.
      destruct (remaining_agents agents_config placed') as [|r rs].
      * eexists. split; [done|]. rewrite app_nil_r in Hrem. by rewrite Hperm'.
      * eexists. split; [done|]. rewrite concat_app. simpl.
        rewrite app_nil_r. by rewrite Hperm'.
    + assert (size placed < size placed') as Hgrow.
      { apply subset_size. split; [done|]. intros Hback.
        assert (picked (placed' ∖ placed) (enumerate agents_config) = []) as Hnil.
        { apply picked_empty. set_solver. }
        by rewrite Hnil in Hwave. }
      apply IH; [done| |lia].
      rewrite concat_app. simpl. by rewrite app_nil_r.
  - eexists. split; [done|].
    assert (placed = indices agents_config) as ->.
    { apply set_subseteq_size_eq; [done|]. rewrite indices_size. lia. }
    rewrite Hperm. rewrite picked_full; [by rewrite enumerate_snd|].
    intros i Hi. rewrite enumerate_fst in Hi. unfold indices.
    by rewrite elem_of_list_to_set.
Qed.

(** The scheduler always answers, and with waves that hold every request
    of the batch exactly once. *)
Lemma waves_loop_total agents_config :
  ∃ ws, waves_loop (S (length agents_config)) agents_config ∅ [] = Some ws
        ∧ _organize_by_dependencies agents_config = ws
        ∧ concat ws ≡ₚ agents_config.
Proof.
  destruct (waves_loop_spec (S (length agents_config)) agents_config ∅ [])
    as (ws & Hws & Hperm).
  - set_solver.
  - simpl. rewrite picked_empty; [done|set_solver].
  - rewrite size_empty. lia.
  - exists ws. unfold _organize_by_dependencies. by rewrite Hws.
Qed.

Lemma organize_covers agents_config :
  concat (_organize_by_dependencies agents_config) ≡ₚ agents_config.
Proof. by destruct (waves_loop_total agents_config) as (ws & _ & -> & Hperm). Qed.

(** ** The batch coordinator *)

Section BatchProperties.

Variable spawn : AgentConfig → M (ToolResult SpawnPayload).

Lemma outcomes_length configs w :
  length (outcomes spawn configs w).1 = length configs.
Proof.
  revert w. induction configs as [|c configs IH]; intros w; simpl; [done|].
  destruct (spawn c w) as [result w1].
  specialize (IH w1). destruct (outcomes spawn configs w1) as [results w2].
  simpl in *. by rewrite IH.
Qed.

Lemma outcomes_app configs1 configs2 w :
  outcomes spawn (configs1 ++ configs2) w =
    let '(results1, w1) := outcomes spawn configs1 w in
    let '(results2, w2) := outcomes spawn configs2 w1 in
    (results1 ++ results2, w2).
Proof.
  revert w. induction configs1 as [|c configs1 IH]; intros w; simpl.
  - by destruct (outcomes spawn configs2 w).
  - destruct (spawn c w) as [result w1]. rewrite IH.
    destruct (outcomes spawn configs1 w1) as [results1 w2].
    by destruct (outcomes spawn configs2 w2).
Qed.

(** Running the waves one after the other is running their requests in
    wave order. *)
Lemma wave_outcomes_concat dependency_waves w :
  wave_outcomes spawn dependency_waves w = outcomes spawn (concat dependency_waves) w.
Proof.
  revert w. induction dependency_waves as [|wave waves IH]; intros w; simpl; [done|].
  rewrite outcomes_app. destruct (outcomes spawn wave w) as [results1 w1].
  by rewrite IH.
Qed.

Lemma batch_results_order coordination_mode agents_config w :
  batch_results spawn coordination_mode agents_config w =
    outcomes spawn (spawn_order coordination_mode agents_config) w.
Proof. destruct coordination_mode; simpl; [done|done|apply wave_outcomes_concat]. Qed.

Lemma spawn_order_perm coordination_mode agents_config :
  spawn_order coordination_mode agents_config ≡ₚ agents_config.
Proof. destruct coordination_mode; simpl; [done|done|apply organize_covers]. Qed.


End BatchProperties.

Lemma process_results_length agents_config results successful_agents failed_agents :
  (∀ i o, (i, o) ∈ results → i < length agents_config) →
  ∃ s f, process_results agents_config results successful_agents failed_agents = inr (s, f)
         ∧ length s + length f
           = length successful_agents + length failed_agents + length results.
Proof.
  revert successful_agents failed_agents.
  induction results as [|[i result] results IH]; intros ss fs Hidx; simpl.
  - exists ss, fs. split; [done|lia].
  - assert (∀ j o, (j, o) ∈ results → j < length agents_config) as Hidx'.
    { intros j o Hj. apply (Hidx j o). by apply list_elem_of_further. }
    assert (i < length agents_config) as Hi by (apply (Hidx i result); left).
    apply lookup_lt_is_Some_2 in Hi as [c Hc].
    unfold config_at. rewrite Hc.
    destruct result as [e|[code message|p]].
    + destruct (IH ss (fs ++ [{| failed_index := i; failed_agent_config := c;
                                failed_error := ErrorText (exn_msg e) |}]) Hidx')
        as (s & f & -> & Hlen).
      exists s, f. split; [done|]. rewrite length_app in Hlen. simpl in *. lia.
    + destruct (IH ss (fs ++ [{| failed_index := i; failed_agent_config := c;
                                failed_error := ErrorObject code message |}]) Hidx')
        as (s & f & -> & Hlen).
      exists s, f. split; [done|]. rewrite length_app in Hlen. simpl in *. lia.
    + destruct (sp_success p).
      * destruct (IH (ss ++ [p]) fs Hidx') as (s & f & -> & Hlen).
        exists s, f. split; [done|]. rewrite length_app in Hlen. simpl in *. lia.
      * destruct (IH ss (fs ++ [{| failed_index := i; failed_agent_config := c;
                                  failed_error := ErrorText "Unknown error" |}]) Hidx')
          as (s & f & -> & Hlen).
        exists s, f. split; [done|]. rewrite length_app in Hlen. simpl in *. lia.
Qed.

Lemma enumerate_index_lt {A} (l : list A) i x : (i, x) ∈ enumerate l → i < length l.
Proof.
  intros Hin. apply elem_of_lookup_imap_1 in Hin as (j & y & Heq & Hj).
  inversion Heq; subst. by apply lookup_lt_Some in Hj.
Qed.




(** A failure descriptor carries the position of the outcome in the result
    list and the request at that position of the input.  In sequential and
    in parallel mode the results are in input order ([spawn_order] is the
    input), so this is the request that failed; in dependency_based mode
    the outcome at position [i] belongs to the request at position [i] of
    the wave order. *)
Lemma process_results_positions agents_config results successful_agents failed_agents s f :
  process_results agents_config results successful_agents failed_agents = inr (s, f) →
  (∀ x, x ∈ failed_agents → agents_config !! failed_index x = Some (failed_agent_config x)) →
  ∀ x, x ∈ f → agents_config !! failed_index x = Some (failed_agent_config x).
Proof.
  revert successful_agents failed_agents.
  induction results as [|[i result] results IH]; intros ss fs Hrun Hfs; simpl in Hrun.
  - by inversion Hrun; subst.
  - unfold config_at in Hrun.
    assert (∀ c error,
              agents_config !! i = Some c →
              ∀ x, x ∈ fs ++ [{| failed_index := i; failed_agent_config := c;
                                 failed_error := error |}] →
                   agents_config !! failed_index x = Some (failed_agent_config x)) as Hadd.
    { intros c error Hc x [Hx|Hx]%elem_of_app; [by apply Hfs|].
      apply list_elem_of_singleton in Hx. by subst. }
    destruct result as [e|[code message|p]].
    + destruct (agents_config !! i) as [c|] eqn:Hc; [|done]. eapply IH; eauto.
    + destruct (agents_config !! i) as [c|] eqn:Hc; [|done]. eapply IH; eauto.
    + destruct (sp_success p); [by eapply IH|].
      destruct (agents_config !! i) as [c|] eqn:Hc; [|done]. eapply IH; eauto.
Qed.

Lemma failed_entries_follow_result_order
    (spawn : AgentConfig → M (ToolResult SpawnPayload))
    (agents : list JsonEntry) (agents_config : list AgentConfig)
    (coordination_mode : CoordinationMode) (w w' : World) (r : BatchResult) :
  validate_agents 0 agents = inr agents_config →
  spawn_agents_batch_with spawn agents coordination_mode w = (ToolSuccess r, w') →
  ∀ x, x ∈ failed_agents r → agents_config !! failed_index x = Some (failed_agent_config x).
Proof.
  intros Hvalid Hrun. unfold spawn_agents_batch_with in Hrun.
  destruct agents as [|a agents]; [done|]. rewrite Hvalid in Hrun.
  destruct (batch_results spawn coordination_mode agents_config w) as [results w1].
  destruct (process_results agents_config (enumerate results) [] [])
    as [e|[s f]] eqn:Hprocess; [done|].
  inversion Hrun; subst. simpl.
  eapply process_results_positions; [exact Hprocess|]. intros x Hx. inversion Hx.
Qed.

(** C2: on the batch of the specification's example the scheduler puts A
    and B in the same wave, whether B names index 0 as text or as a number:
    B finds A placed earlier in the same pass.  The waves are [[A, B], [C]]
    and not [[A], [B], [C]]. *)
Theorem organize_example_same_wave :
  _organize_by_dependencies (example_batch (DStr "0"))
    = [[request "A" None; request "B" (Some [DStr "0"])]; [request "C" (Some [DStr "zzz"])]]
  ∧ _organize_by_dependencies (example_batch (DInt 0))
    = [[request "A" None; request "B" (Some [DInt 0])]; [request "C" (Some [DStr "zzz"])]]
  ∧ _organize_by_dependencies (example_batch (DStr "0"))
    ≠ [[request "A" None]; [request "B" (Some [DStr "0"])]; [request "C" (Some [DStr "zzz"])]].
Proof. split_and!; [vm_compute; reflexivity..|vm_compute; discriminate]. Qed.

(** The scheduler orders a dependency before its dependent only when the
    dependency comes later in the input: here the second request is run in
    the first wave and the first request in the second. *)
Lemma organize_reordered :
  _organize_by_dependencies reordered_batch
  = [[request "tester" None]; [request "implementer" (Some [DStr "1"])]].
Proof. vm_compute. reflexivity. Qed.

(** C3: in dependency_based mode the results are in wave order while the
    failure descriptors are built from the position in the result list.  On
    [reordered_batch] the request that fails is the tester, at index 1; the
    descriptor carries index 0 and the configuration of the implementer,
    whose own spawn is among the successful ones. *)
Theorem failed_entry_blames_other_request :
  ∃ r w',
    spawn_agents_batch reordered_envs "/repo" (Dict <$> reordered_batch) None
      dependency_based 5 None empty_world = (ToolSuccess r, w')
    ∧ failed_agents r
      = [{| failed_index := 0;
            failed_agent_config := request "implementer" (Some [DStr "1"]);
            failed_error := ErrorObject "AGENT_DB_CREATION_FAILED" "database is locked" |}]
    ∧ sp_agent_type <$> successful_agents r = ["implementer"]
    ∧ spawn_order dependency_based reordered_batch !! 0 = Some (request "tester" None)
    ∧ reordered_batch !! 1 = Some (request "tester" None).
Proof.
  eexists _, _. split_and!; [vm_compute; reflexivity|reflexivity| |vm_compute|]; reflexivity.
Qed.


(** ** The single-agent spawn *)

Ltac run_monad :=
  unfold mbind, mret, M_bind, M_ret, try_except, best_effort, raise, emit, modify_store,
    get_store, may_raise; simpl.

Section SpawnPaths.

Variable env : SpawnEnv.
Variables agent_type repository_path task_description initial_context : string.
Variables foundation_session_id coordination_room : string.
Variable capabilities : option (list string).
Variable raw_configuration : RawConfiguration.
Variable depends_on : option (list Dep).
Variable agent_id : string.
Variable parsed_configuration : option (gmap string PyVal).

Local Abbreviation room_name := (room_name_of coordination_room agent_type agent_id).
Local Abbreviation deps := (default [] depends_on).

(** With the record created and the preparation going through, the call is
    the launching [try] run after the preparation calls, followed by its
    [except] clause when it fails, and the final [return]. *)
Lemma spawn_reaches_launcher (dependency_info : gmap string PyVal) (prompt : string)
    (w : World) :
  record_created env agent_id parsed_configuration →
  launcher_reached env coordination_room deps dependency_info prompt →
  _spawn_single_agent env agent_type repository_path task_description initial_context
    foundation_session_id coordination_room capabilities raw_configuration depends_on true w
  = let w1 :=
      {| store := <[agent_id := AgentService.new_agent agent_id agent_type repository_path
                                  (default [] capabilities) parsed_configuration]> (store w);
         trace := trace w ++ calls_before_launch agent_type repository_path initial_context
                               coordination_room (default [] capabilities)
                               parsed_configuration deps agent_id |} in
    let result claude_pid execution_info :=
      inr (ToolSuccess (payload env agent_type repository_path task_description
                          coordination_room agent_id true claude_pid execution_info
                          dependency_info)) in
    match launch env agent_type repository_path task_description foundation_session_id
            agent_id room_name prompt parsed_configuration deps w1 with
    | (inr (claude_pid, inr execution_info), w2) => (result claude_pid execution_info, w2)
    | (inr (claude_pid, inl e), w2) =>
        match spawn_failed env agent_type task_description foundation_session_id e
                agent_id room_name parsed_configuration deps w2 with
        | (inr execution_info, w3) => (result claude_pid execution_info, w3)
        | (inl e', w3) => (inr (ToolError "SPAWN_AGENT_FAILED" (exn_msg e')), w3)
        end
    | (inl e, w2) => (inr (ToolError "SPAWN_AGENT_FAILED" (exn_msg e)), w2)
    end.
Proof.
  intros [Hparse [error Hcreate]] [Hdeps Havail Hroom [profile Hprofile] Hjoin Hformat].
  unfold _spawn_single_agent. rewrite Hparse.
  unfold AgentService.create_agent. run_monad. rewrite Hcreate. simpl.
  unfold execute, setup_dependency_monitoring, ensure_room, get_agent_tool_profile,
    claude_prompt. run_monad.
  rewrite Havail, Hprofile, Hjoin, Hformat. simpl.
  unfold calls_before_launch.
  destruct deps as [|d ds]; [subst dependency_info|rewrite Hdeps]; simpl.
  all: destruct (nonempty coordination_room) eqn:Hne; simpl.
  all: try (destruct Hroom as [Hroom|Hroom]; [done|rewrite Hroom]).
  all: try destruct (env_room env); simpl.
  all: rewrite <- ?app_assoc; simpl.
  all: destruct (launch _ _ _ _ _ _ _ _ _ _ _) as [[e1|[pid [e2|info]]] w2]; try done.
  all: by destruct (spawn_failed _ _ _ _ _ _ _ _ _ _) as [[e'|info] w3].
Qed.



Lemma spawn_failed_spec (e : Exn) (w : World) :
  spawn_failed env agent_type task_description foundation_session_id e agent_id room_name
    parsed_configuration deps w
  = (inr (failure_info e (env_now env)),
     {| store := best_effort_write (env_update_agent_status env)
                   (AgentService.set_status TERMINATED
                      (failed_config parsed_configuration e room_name
                         foundation_session_id deps task_description))
                   agent_id (store w);
        trace := trace w
                 ++ [CallCtxError agent_type;
                     CallUpdateAgentStatus agent_id TERMINATED
                       (failed_config parsed_configuration e room_name
                          foundation_session_id deps task_description)] |}).
Proof.
  unfold spawn_failed, AgentService.update_agent_status. run_monad.
  destruct (env_ctx env), (env_update_agent_status env); simpl; by rewrite <- ?app_assoc.
Qed.

End SpawnPaths.

(** The call never lets an exception out: every path ends in a dictionary. *)
Lemma spawn_single_agent_returns (env : SpawnEnv)
    (agent_type repository_path task_description initial_context : string)
    (foundation_session_id coordination_room : string)
    (capabilities : option (list string)) (raw_configuration : RawConfiguration)
    (depends_on : option (list Dep)) (auto_execute : bool) (w : World) :
  ∃ result,
    (_spawn_single_agent env agent_type repository_path task_description initial_context
       foundation_session_id coordination_room capabilities raw_configuration depends_on
       auto_execute w).1 = inr result.
Proof.
  unfold _spawn_single_agent, try_except.
  match goal with |- context [match ?m w with _ => _ end] => destruct (m w) as [[e|r] w1] end;
    eexists; reflexivity.
Qed.

(** C6, as stated, fails: when the store refuses the record the error code
    is AGENT_DB_CREATION_FAILED, and when the store raises it is
    SPAWN_AGENT_FAILED; neither is RECORD_CREATION_FAILED. *)
Lemma record_creation_failure_code :
  (sample_spawn env_refused).1
    = inr (ToolError "AGENT_DB_CREATION_FAILED" "database is locked")
  ∧ (sample_spawn env_store_down).1
    = inr (ToolError "SPAWN_AGENT_FAILED" "connection refused")
  ∧ "AGENT_DB_CREATION_FAILED" ≠ "RECORD_CREATION_FAILED"
  ∧ "SPAWN_AGENT_FAILED" ≠ "RECORD_CREATION_FAILED".
Proof. split_and!; [vm_compute; reflexivity..|discriminate|discriminate]. Qed.

(** C6, amended: when the store does not create the record, the call stops
    at once with an error dictionary -- code AGENT_DB_CREATION_FAILED when
    the store reports the failure, SPAWN_AGENT_FAILED when it raises -- and
    the only collaborator call made is the creation attempt: no room is
    joined or created and no process is launched; the store is unchanged. *)
Theorem record_creation_failure_aborts (env : SpawnEnv)
    (agent_type repository_path task_description initial_context : string)
    (foundation_session_id coordination_room : string)
    (capabilities : option (list string)) (raw_configuration : RawConfiguration)
    (depends_on : option (list Dep)) (auto_execute : bool)
    (parsed_configuration : option (gmap string PyVal)) (w : World) :
  env_parse_ai_json env = Parsed parsed_configuration →
  creation_failed env →
  ∃ calls,
    _spawn_single_agent env agent_type repository_path task_description initial_context
      foundation_session_id coordination_room capabilities raw_configuration depends_on
      auto_execute w
    = (inr (ToolError (creation_error env).1 (creation_error env).2),
       {| store := store w; trace := trace w ++ calls |})
    ∧ calls = [CallCreateAgent agent_type repository_path (default [] capabilities)
                 initial_context parsed_configuration]
    ∧ existsb launched calls = false.
Proof.
  intros Hparse Hfail. eexists. split; [|split; reflexivity].
  unfold _spawn_single_agent, creation_failed, creation_error in *. rewrite Hparse.
  unfold AgentService.create_agent. run_monad.
  destruct (env_create_agent env) as [e|agent_result]; simpl.
  - reflexivity.
  - destruct agent_result as [success id error]. simpl in *. subst success. reflexivity.
Qed.

Lemma record_creation_failure_aborts_witness :
  ∃ calls,
    sample_spawn env_refused
    = (inr (ToolError "AGENT_DB_CREATION_FAILED" "database is locked"),
       {| store := ∅; trace := [] ++ calls |})
    ∧ calls = [CallCreateAgent "backend" "/repo" [] "" None]
    ∧ existsb launched calls = false.
Proof.
  apply (record_creation_failure_aborts env_refused "backend" "/repo" "build the API" "" "" ""
           None RawNone (Some [DStr "agent-0000-ffff"; DStr "architect"]) true None
           empty_world).
  - reflexivity.
  - reflexivity.
Defined.

(** The launcher's answer is rejected exactly in the four cases of the
    source: failure reported, no process handle, process already exited,
    no process identifier. *)
Lemma validate_rejects_iff (claude_result : ClaudeResult) :
  (∃ claude_pid e, validate_claude_result claude_result = Rejected claude_pid e)
  ↔ claude_success claude_result = false
    ∨ claude_process claude_result = None
    ∨ (∃ process returncode,
         claude_process claude_result = Some process ∧ poll process = Some returncode)
    ∨ truthy_pid (claude_result_pid claude_result) = false.
Proof.
  unfold validate_claude_result, truthy_pid.
  destruct claude_result as [success error process pid]; simpl.
  destruct success; simpl; [|naive_solver].
  destruct process as [[[returncode|]]|]; simpl; [naive_solver| |naive_solver].
  destruct pid as [pid|]; simpl; [|naive_solver].
  destruct (pid =? 0)%Z; simpl; naive_solver.
Qed.







(** ** Status read and termination *)

(** C7: a status read of an agent with a recorded process identifier probes
    the process.  When the process is not running, is unknown, or access to
    it is denied, the read asks the store to complete the agent before it
    returns: the answer that carries the record is given with the stored
    status already COMPLETED, and when the store refuses the write the read
    itself fails. *)
Theorem status_read_completes_gone_process (env : StatusEnv) (agent_id : string)
    (a : Agent) (pid : Z) (w : World) :
  env_get_agent_by_id env = None →
  store w !! agent_id = Some a →
  claude_pid a = Some pid →
  pid ≠ 0%Z →
  (∃ rest, trace (get_agent_status env agent_id w).2
           = trace w ++ [CallGetAgentById agent_id; CallProbe pid] ++ rest)
  ∧ (process_gone (env_probe env) = true →
     (env_complete_agent env = None →
      get_agent_status env agent_id w
      = (inr (ToolSuccess {| view_record := a; view_status := COMPLETED;
                             view_process_status := Some "completed" |}),
         {| store := alter (AgentService.set_status COMPLETED ∅) agent_id (store w);
            trace := trace w ++ [CallGetAgentById agent_id; CallProbe pid;
                                 CallCompleteAgent agent_id] |})
      ∧ status <$> store (get_agent_status env agent_id w).2 !! agent_id = Some COMPLETED)
     ∧ (∀ e, env_complete_agent env = Some e →
        (get_agent_status env agent_id w).1 = inr (ToolError "GET_STATUS_FAILED" (exn_msg e)))).
Proof.
  intros Hget Hstored Hpid Hnz.
  assert (truthy_pid (claude_pid a) = true) as Htruthy.
  { rewrite Hpid. simpl. by destruct (Z.eqb_spec pid 0). }
  unfold get_agent_status, AgentService.get_agent_by_id, AgentService.complete_agent.
  run_monad. rewrite Hget. simpl. rewrite Hstored. simpl. rewrite Htruthy, Hpid. simpl.
  split.
  - destruct (env_probe env); simpl; try destruct (env_complete_agent env); simpl;
      rewrite <- ?app_assoc; simpl; eexists; reflexivity.
  - intros Hgone. split.
    + intros Hcomplete. rewrite Hcomplete.
      destruct (env_probe env); try discriminate; simpl; rewrite <- ?app_assoc; simpl.
      all: split; [reflexivity|by rewrite lookup_alter_eq, Hstored].
    + intros e Hcomplete. rewrite Hcomplete.
      destruct (env_probe env); try discriminate; reflexivity.
Qed.

Lemma status_read_completes_gone_process_witness :
  (∃ rest, trace (get_agent_status env_process_unknown "agent-1111-aaaa"
                    (world_with launched_agent)).2
           = [] ++ [CallGetAgentById "agent-1111-aaaa"; CallProbe 4242] ++ rest)
  ∧ status <$> store (get_agent_status env_process_unknown "agent-1111-aaaa"
                        (world_with launched_agent)).2 !! "agent-1111-aaaa"
    = Some COMPLETED.
Proof.
  destruct (status_read_completes_gone_process env_process_unknown "agent-1111-aaaa"
              launched_agent 4242%Z (world_with launched_agent))
    as [Hprobe Hgone].
  - reflexivity.
  - reflexivity.
  - reflexivity.
  - discriminate.
  - split; [exact Hprobe|].
    destruct Hgone as [Hdone _]; [reflexivity|].
    destruct Hdone as [_ Hstatus]; [reflexivity|exact Hstatus].
Defined.

(** C10: a status read of an existing agent without a process identifier
    makes one call, the read of the record: it probes no process and
    writes nothing, and it answers with the record and the status as
    stored. *)
Theorem status_read_without_pid_is_pure (env : StatusEnv) (agent_id : string)
    (a : Agent) (w : World) :
  env_get_agent_by_id env = None →
  store w !! agent_id = Some a →
  truthy_pid (claude_pid a) = false →
  get_agent_status env agent_id w
  = (inr (ToolSuccess {| view_record := a; view_status := status a;
                         view_process_status := None |}),
     {| store := store w; trace := trace w ++ [CallGetAgentById agent_id] |}).
Proof.
  intros Hget Hstored Hpid.
  unfold get_agent_status, AgentService.get_agent_by_id. run_monad.
  rewrite Hget. simpl. rewrite Hstored. simpl. by rewrite Hpid.
Qed.

Lemma status_read_without_pid_is_pure_witness :
  get_agent_status env_process_unknown "agent-2222-bbbb" (world_with unlaunched_agent)
  = (inr (ToolSuccess {| view_record := unlaunched_agent; view_status := PENDING;
                         view_process_status := None |}),
     {| store := {[ "agent-2222-bbbb" := unlaunched_agent ]};
        trace := [] ++ [CallGetAgentById "agent-2222-bbbb"] |}).
Proof.
  apply (status_read_without_pid_is_pure env_process_unknown "agent-2222-bbbb"
           unlaunched_agent (world_with unlaunched_agent)); reflexivity.
Defined.

(** C9, as stated, fails: the reason only comes back in the answer.  Two
    terminations of the same agent with different reasons leave the same
    world behind, and the terminated record does not hold the reason. *)
Lemma termination_reason_not_recorded :
  (terminate_agent None "agent-1111-aaaa" "budget exhausted" (world_with launched_agent)).1
    = inr (ToolSuccess {| term_agent_id := "agent-1111-aaaa";
                          term_reason := "budget exhausted";
                          term_status := "terminated" |})
  ∧ (terminate_agent None "agent-1111-aaaa" "budget exhausted" (world_with launched_agent)).2
    = (terminate_agent None "agent-1111-aaaa" "superseded" (world_with launched_agent)).2
  ∧ store (terminate_agent None "agent-1111-aaaa" "budget exhausted"
             (world_with launched_agent)).2 !! "agent-1111-aaaa"
    = Some (stored_agent "agent-1111-aaaa" TERMINATED (Some 4242%Z))
  ∧ ¬ mentions (stored_agent "agent-1111-aaaa" TERMINATED (Some 4242%Z)) "budget exhausted".
Proof.
  split_and!; [reflexivity..|].
  intros [H|[H|[H|[H|[key H]]]]]; simpl in H; try discriminate.
  inversion H.
Qed.

(** C9, amended: [terminate_agent] on a non-terminal agent moves the agent
    to TERMINATED and answers with the agent id, the caller's reason and the
    status "terminated"; the reason is part of the answer only: the call
    made to the store carries the agent id alone, and the world left behind
    is the same for every reason. *)
Theorem terminate_sets_terminated (agent_id reason : string) (a : Agent) (w : World) :
  store w !! agent_id = Some a →
  is_terminal (status a) = false →
  terminate_agent None agent_id reason w
  = (inr (ToolSuccess {| term_agent_id := agent_id; term_reason := reason;
                         term_status := "terminated" |}),
     {| store := alter (AgentService.set_status TERMINATED ∅) agent_id (store w);
        trace := trace w ++ [CallTerminateAgent agent_id] |})
  ∧ status <$> store (terminate_agent None agent_id reason w).2 !! agent_id = Some TERMINATED
  ∧ ∀ reason', (terminate_agent None agent_id reason' w).2
               = (terminate_agent None agent_id reason w).2.
Proof.
  intros Hstored Hlive.
  assert (∀ r, terminate_agent None agent_id r w
               = (inr (ToolSuccess {| term_agent_id := agent_id; term_reason := r;
                                      term_status := "terminated" |}),
                  {| store := alter (AgentService.set_status TERMINATED ∅) agent_id (store w);
                     trace := trace w ++ [CallTerminateAgent agent_id] |})) as Hrun.
  { intros r. unfold terminate_agent, AgentService.terminate_agent. run_monad.
    rewrite Hstored. simpl. by rewrite Hlive. }
  split_and!.
  - apply Hrun.
  - rewrite Hrun. simpl. by rewrite lookup_alter_eq, Hstored.
  - intros reason'. by rewrite !Hrun.
Qed.

Lemma terminate_sets_terminated_witness :
  status <$> store (terminate_agent None "agent-1111-aaaa" "budget exhausted"
                      (world_with launched_agent)).2 !! "agent-1111-aaaa"
  = Some TERMINATED.
Proof.
  destruct (terminate_sets_terminated "agent-1111-aaaa" "budget exhausted" launched_agent
              (world_with launched_agent)) as (_ & Hstatus & _).
  - reflexivity.
  - reflexivity.
  - exact Hstatus.
Defined.

(** ** The concurrency gate *)

(** The tasks of [l] that are in flight. *)
Lemma in_flight_acquire (l : list TaskState) (i : nat) :
  l !! i = Some Waiting →
  length (filter (λ t, t = InFlight) (<[i := InFlight]> l))
  = S (length (filter (λ t, t = InFlight) l)).
Proof.
  revert i. induction l as [|t l IH]; intros i Hi; [done|].
  destruct i as [|i].
  - inversion Hi; subst. reflexivity.
  - change (<[S i:=InFlight]> (t :: l)) with (t :: <[i:=InFlight]> l).
    change ((t :: l) !! S i) with (l !! i) in Hi.
    rewrite !filter_cons. case_decide; cbn [length]; by rewrite (IH i).
Qed.

Lemma in_flight_release (l : list TaskState) (i : nat) :
  l !! i = Some InFlight →
  S (length (filter (λ t, t = InFlight) (<[i := Finished]> l)))
  = length (filter (λ t, t = InFlight) l).
Proof.
  revert i. induction l as [|t l IH]; intros i Hi; [done|].
  destruct i as [|i].
  - inversion Hi; subst. reflexivity.
  - change (<[S i:=Finished]> (t :: l)) with (t :: <[i:=Finished]> l).
    change ((t :: l) !! S i) with (l !! i) in Hi.
    rewrite !filter_cons. case_decide; cbn [length]; by rewrite <- (IH i).
Qed.

Lemma in_flight_initial (value n : nat) : in_flight (gate value n) = 0.
Proof.
  unfold in_flight, gate. cbn [tasks]. induction n as [|n IH]; [done|].
  cbn [replicate]. by rewrite filter_cons_False.
Qed.

(** A step keeps the sum of the calls in flight and the free permits. *)
Lemma gate_step_invariant (g g' : Gate) :
  gate_step g g' → in_flight g' + permits g' = in_flight g + permits g.
Proof.
  intros [g0 i Hwait Hfree|g0 i Hheld]; unfold in_flight; cbn [tasks permits].
  - rewrite (in_flight_acquire _ i Hwait). lia.
  - rewrite <- (in_flight_release _ i Hheld). lia.
Qed.

Lemma gate_invariant (g g' : Gate) :
  rtc gate_step g g' → in_flight g' + permits g' = in_flight g + permits g.
Proof.
  induction 1 as [g|g g1 g2 Hstep _ IH]; [done|].
  rewrite IH. by apply gate_step_invariant.
Qed.

Lemma gate_bound (value n : nat) (g : Gate) :
  rtc gate_step (gate value n) g → (in_flight g ≤ value)%nat.
Proof.
  intros Hreach. apply gate_invariant in Hreach.
  rewrite in_flight_initial in Hreach. simpl in Hreach. lia.
Qed.

(** C5: whatever the interleaving of the tasks, the number of spawn calls
    in flight never exceeds [max_concurrent] in parallel mode, and within a
    wave of dependency_based mode it never exceeds
    [min(max_concurrent, len(wave))], hence [max_concurrent]. *)
Theorem in_flight_never_exceeds_max_concurrent (max_concurrent : nat)
    (agents_config : list AgentConfig) :
  (∀ g, rtc gate_step (parallel_gate max_concurrent agents_config) g →
        (in_flight g ≤ max_concurrent)%nat)
  ∧ (∀ wave g,
       wave ∈ _organize_by_dependencies agents_config →
       rtc gate_step (wave_gate max_concurrent wave) g →
       (in_flight g ≤ max_concurrent `min` length wave)%nat
       ∧ (in_flight g ≤ max_concurrent)%nat).
Proof.
  split.
  - intros g Hreach. by apply gate_bound in Hreach.
  - intros wave g _ Hreach. apply gate_bound in Hreach. lia.
Qed.

Lemma in_flight_never_exceeds_max_concurrent_witness :
  (in_flight {| permits := 0; tasks := [InFlight; Waiting] |} ≤ 1)%nat
  ∧ (in_flight {| permits := 0; tasks := [InFlight] |} ≤ 1 `min` 1)%nat.
Proof.
  destruct (in_flight_never_exceeds_max_concurrent 1 reordered_batch) as [Hpar Hwave].
  split.
  - apply Hpar.
    apply rtc_once. apply (acquire (parallel_gate 1 reordered_batch) 0); simpl; [reflexivity|lia].
  - apply (Hwave [request "tester" None]).
    + rewrite organize_reordered. left.
    + apply rtc_once.
      apply (acquire (wave_gate 1 [request "tester" None]) 0); simpl; [reflexivity|lia].
Defined.

(** ** More on the wave scheduler *)

Lemma waves_loop_nonempty fuel agents_config placed waves ws :
  Forall (λ wave, wave ≠ []) waves →
  waves_loop fuel agents_config placed waves = Some ws →
  Forall (λ wave, wave ≠ []) ws.
Proof.
  revert placed waves.
  induction fuel as [|fuel IH]; intros placed waves Hwaves Hrun; [done|].
  simpl in Hrun. case_decide; [|by inversion Hrun; subst].
  destruct (scan_requests agents_config (enumerate agents_config) placed [])
    as [[|c wave] placed'].
  - destruct (remaining_agents agents_config placed') as [|r rs];
      inversion Hrun; subst; [done|].
    apply Forall_app. split; [done|]. by constructor.
  - eapply IH; [|exact Hrun]. apply Forall_app. split; [done|]. by constructor.
Qed.

Lemma concat_nonempty_length {A} (ls : list (list A)) :
  Forall (λ l, l ≠ []) ls → (length ls ≤ length (concat ls))%nat.
Proof.
  induction 1 as [|l ls Hl _ IH]; [done|].
  simpl. rewrite length_app. destruct l; [done|]. simpl. lia.
Qed.

(** X1: The waves hold every request of the batch exactly once, no wave is
    empty, and so there are at most as many waves as requests. *)
Theorem waves_partition_the_batch (agents_config : list AgentConfig) :
  concat (_organize_by_dependencies agents_config) ≡ₚ agents_config
  ∧ Forall (λ wave, wave ≠ []) (_organize_by_dependencies agents_config)
  ∧ (length (_organize_by_dependencies agents_config) ≤ length agents_config)%nat.
Proof.
  destruct (waves_loop_total agents_config) as (ws & Hrun & -> & Hperm).
  assert (Forall (λ wave, wave ≠ []) ws) as Hne.
  { eapply waves_loop_nonempty; [|exact Hrun]. constructor. }
  split_and!; [done|done|].
  rewrite <- (Permutation_length Hperm). by apply concat_nonempty_length.
Qed.

Lemma picked_sublist S todo : picked S todo `sublist_of` todo.*2.
Proof. unfold picked. apply fmap_sublist, sublist_filter. Qed.

Lemma remaining_sublist agents_config placed :
  remaining_agents agents_config placed `sublist_of` agents_config.
Proof.
  unfold remaining_agents. rewrite <- (enumerate_snd agents_config) at 2.
  apply fmap_sublist, sublist_filter.
Qed.

Lemma enumerate_NoDup {A} (l : list A) : NoDup (enumerate l).*1.
Proof. rewrite enumerate_fst. apply NoDup_seq. Qed.

Lemma waves_loop_sublists fuel agents_config placed waves ws :
  Forall (λ wave, wave `sublist_of` agents_config) waves →
  waves_loop fuel agents_config placed waves = Some ws →
  Forall (λ wave, wave `sublist_of` agents_config) ws.
Proof.
  revert placed waves.
  induction fuel as [|fuel IH]; intros placed waves Hwaves Hrun; [done|].
  simpl in Hrun. case_decide; [|by inversion Hrun; subst].
  destruct (scan_requests_spec agents_config (enumerate agents_config) placed []
              (enumerate_NoDup _)) as (wave & placed' & Hscan & _ & _ & Hwave).
  rewrite Hscan in Hrun. simpl in Hwave.
  assert (wave `sublist_of` agents_config) as Hsub.
  { rewrite Hwave. rewrite <- (enumerate_snd agents_config) at 2. apply picked_sublist. }
  destruct wave as [|c wave].
  - destruct (remaining_agents agents_config placed') as [|r rs] eqn:Hrem;
      inversion Hrun; subst; [done|].
    apply Forall_app. split; [done|]. constructor; [|done].
    rewrite <- Hrem. apply remaining_sublist.
  - eapply IH; [|exact Hrun]. apply Forall_app. split; [done|]. by constructor.
Qed.

(** X2: Within a wave the requests keep the order they have in the batch: every
    wave is a sublist of the input list. *)
Theorem waves_keep_input_order (agents_config : list AgentConfig) :
  Forall (λ wave, wave `sublist_of` agents_config) (_organize_by_dependencies agents_config).
Proof.
  destruct (waves_loop_total agents_config) as (ws & Hrun & -> & _).
  eapply waves_loop_sublists; [|exact Hrun]. constructor.
Qed.

Lemma scan_requests_mono agents_config todo placed wave :
  placed ⊆ (scan_requests agents_config todo placed wave).2.
Proof.
  revert placed wave. induction todo as [|[i c] todo IH]; intros placed wave; simpl; [done|].
  case_bool_decide; [apply IH|].
  destruct (joins_wave agents_config placed c); [|apply IH].
  etrans; [|apply IH]. set_solver.
Qed.

Lemma independent_joins agents_config placed c :
  independent c = true → joins_wave agents_config placed c = true.
Proof.
  unfold independent, joins_wave.
  by destruct (default [] (cfg_depends_on c)).
Qed.

Lemma scan_places_independent agents_config todo placed wave i c :
  (i, c) ∈ todo → independent c = true →
  i ∈ (scan_requests agents_config todo placed wave).2.
Proof.
  revert placed wave.
  induction todo as [|[j c'] todo IH]; intros placed wave Hin Hfree; [inversion Hin|].
  simpl. apply elem_of_cons in Hin as [Heq|Hin].
  - inversion Heq; subst j c'. case_bool_decide as Hi.
    + by apply scan_requests_mono.
    + rewrite independent_joins by done.
      apply scan_requests_mono. set_solver.
  - case_bool_decide; [by apply IH|].
    destruct (joins_wave agents_config placed c'); by apply IH.
Qed.

Lemma picked_elem S todo i c : (i, c) ∈ todo → i ∈ S → c ∈ picked S todo.
Proof.
  intros Hin Hi. unfold picked. apply list_elem_of_fmap. exists (i, c). split; [done|].
  by apply list_elem_of_filter.
Qed.

Lemma enumerate_elem {A} (l : list A) i x : l !! i = Some x → (i, x) ∈ enumerate l.
Proof. intros Hi. by apply (elem_of_lookup_imap_2 pair). Qed.

Lemma waves_loop_prefix fuel agents_config placed waves ws :
  waves_loop fuel agents_config placed waves = Some ws → ∃ more, ws = waves ++ more.
Proof.
  revert placed waves.
  induction fuel as [|fuel IH]; intros placed waves Hrun; [done|].
  simpl in Hrun. case_decide; [|inversion Hrun; subst; exists []; by rewrite app_nil_r].
  destruct (scan_requests agents_config (enumerate agents_config) placed [])
    as [[|c wave] placed'].
  - destruct (remaining_agents agents_config placed') as [|r rs];
      inversion Hrun; subst; [exists []; by rewrite app_nil_r|by eexists].
  - apply IH in Hrun as [more ->]. rewrite <- app_assoc. by eexists.
Qed.

(** X3: A request without dependencies is run in the first wave. *)
Theorem independent_requests_first_wave (agents_config : list AgentConfig)
    (agent_config : AgentConfig) :
  agent_config ∈ agents_config →
  independent agent_config = true →
  ∃ wave rest,
    _organize_by_dependencies agents_config = wave :: rest ∧ agent_config ∈ wave.
Proof.
  intros [i Hi]%list_elem_of_lookup Hfree.
  destruct (waves_loop_total agents_config) as (ws & Hrun & -> & _).
  cbn [waves_loop] in Hrun.
  apply lookup_lt_Some in Hi as Hlt.
  case_decide as Hsize; [|rewrite size_empty in Hsize; lia].
  pose proof (scan_places_independent agents_config (enumerate agents_config) ∅ [] i
                agent_config (enumerate_elem _ _ _ Hi) Hfree) as Hplaced.
  destruct (scan_requests_spec agents_config (enumerate agents_config) ∅ []
              (enumerate_NoDup _)) as (wave & placed' & Hscan & _ & _ & Hwave).
  rewrite Hscan in Hrun, Hplaced. simpl in Hwave, Hplaced.
  assert (agent_config ∈ wave) as Hin.
  { rewrite Hwave. eapply picked_elem; [by apply enumerate_elem|set_solver]. }
  destruct wave as [|c wave]; [inversion Hin|].
  apply waves_loop_prefix in Hrun as [more ->]. by eexists _, _.
Qed.

Lemma independent_requests_first_wave_witness :
  ∃ wave rest,
    _organize_by_dependencies (example_batch (DStr "0")) = wave :: rest
    ∧ request "A" None ∈ wave.
Proof.
  apply (independent_requests_first_wave (example_batch (DStr "0")) (request "A" None)).
  - left.
  - reflexivity.
Defined.

Lemma unresolvable_not_found agents_config placed dep :
  unresolvable agents_config dep = true → dep_found agents_config placed dep = false.
Proof.
  unfold unresolvable, dep_found.
  induction (enumerate agents_config) as [|[j c] l IH]; [done|].
  simpl. intros [Hhead Htail]%andb_prop. rewrite IH by done.
  unfold names in Hhead. apply negb_true_iff in Hhead. rewrite Hhead.
  by rewrite andb_false_r.
Qed.

Lemma waits_forever_never_joins agents_config placed c :
  waits_forever agents_config c = true → joins_wave agents_config placed c = false.
Proof.
  unfold waits_forever, joins_wave, dependencies_satisfied.
  induction (default [] (cfg_depends_on c)) as [|d ds IH]; [done|].
  simpl. intros [Hd|Hds]%orb_prop.
  - by rewrite (unresolvable_not_found _ placed _ Hd).
  - destruct ds as [|d' ds']; [done|]. rewrite (IH Hds). apply andb_false_r.
Qed.

Lemma scan_skips_waiting agents_config todo placed wave i :
  (∀ c, (i, c) ∈ todo → waits_forever agents_config c = true) →
  i ∉ placed →
  i ∉ (scan_requests agents_config todo placed wave).2.
Proof.
  revert placed wave.
  induction todo as [|[j c] todo IH]; intros placed wave Hwait Hi; [done|].
  assert (∀ c', (i, c') ∈ todo → waits_forever agents_config c' = true) as Hwait'.
  { intros c' Hc'. apply Hwait. by apply list_elem_of_further. }
  simpl. case_bool_decide as Hj; [by apply IH|].
  destruct (joins_wave agents_config placed c) eqn:Hjoin; [|by apply IH].
  apply IH; [done|].
  assert (i ≠ j); [|set_solver].
  intros ->. rewrite waits_forever_never_joins in Hjoin; [done|].
  apply Hwait. left.
Qed.

Lemma enumerate_elem_inv {A} (l : list A) i x : (i, x) ∈ enumerate l → l !! i = Some x.
Proof.
  intros Hin. apply elem_of_lookup_imap_1 in Hin as (j & y & Heq & Hj).
  by inversion Heq; subst.
Qed.

Lemma waves_loop_waiting fuel agents_config placed waves ws i c :
  agents_config !! i = Some c →
  waits_forever agents_config c = true →
  placed ⊆ indices agents_config →
  i ∉ placed →
  waves_loop fuel agents_config placed waves = Some ws →
  ∃ wave, last ws = Some wave ∧ c ∈ wave.
Proof.
  intros Hi Hwait. revert placed waves.
  induction fuel as [|fuel IH]; intros placed waves Hsub Hout Hrun; [done|].
  simpl in Hrun. case_decide as Hsize.
  - pose proof (scan_skips_waiting agents_config (enumerate agents_config) placed [] i)
      as Hskip.
    destruct (scan_requests_spec agents_config (enumerate agents_config) placed []
                (enumerate_NoDup _)) as (wave & placed' & Hscan & _ & Hsup & _).
    rewrite Hscan in Hrun, Hskip. simpl in Hskip.
    rewrite enumerate_fst in Hsup. fold (indices agents_config) in Hsup.
    assert (i ∉ placed') as Hout'.
    { apply Hskip; [|done]. intros c' Hc'. apply enumerate_elem_inv in Hc'. congruence. }
    destruct wave as [|c0 wave].
    + assert (c ∈ remaining_agents agents_config placed') as Hrem.
      { unfold remaining_agents. apply list_elem_of_fmap. exists (i, c). split; [done|].
        apply list_elem_of_filter. split; [done|]. by apply enumerate_elem. }
      destruct (remaining_agents agents_config placed') as [|r rs]; [inversion Hrem|].
      inversion Hrun; subst. eexists. split; [apply last_snoc|done].
    + eapply IH; [|exact Hout'|exact Hrun]. set_solver.
  - exfalso. apply Hout.
    assert (placed = indices agents_config) as ->.
    { apply set_subseteq_size_eq; [done|]. rewrite indices_size. lia. }
    unfold indices. rewrite elem_of_list_to_set, elem_of_seq.
    apply lookup_lt_Some in Hi. lia.
Qed.

(** X4: A request with a dependency that names no request of the batch (neither
    an id, nor an index, nor a type that occurs in it) is never placed by a
    pass: it is run in the last wave, the one that takes whatever is left. *)
Theorem unresolvable_dependency_last_wave (agents_config : list AgentConfig) (i : nat)
    (agent_config : AgentConfig) :
  agents_config !! i = Some agent_config →
  waits_forever agents_config agent_config = true →
  ∃ wave, last (_organize_by_dependencies agents_config) = Some wave ∧ agent_config ∈ wave.
Proof.
  intros Hi Hwait.
  destruct (waves_loop_total agents_config) as (ws & Hrun & -> & _).
  eapply (waves_loop_waiting _ _ ∅ []); [exact Hi|exact Hwait|set_solver|set_solver|exact Hrun].
Qed.

Lemma unresolvable_dependency_last_wave_witness :
  ∃ wave, last (_organize_by_dependencies (example_batch (DStr "0"))) = Some wave
          ∧ request "C" (Some [DStr "zzz"]) ∈ wave.
Proof.
  apply (unresolvable_dependency_last_wave (example_batch (DStr "0")) 2
           (request "C" (Some [DStr "zzz"]))).
  - reflexivity.
  - reflexivity.
Defined.

Lemma refers_back_joins agents_config k c :
  refers_back agents_config = true →
  agents_config !! k = Some c →
  joins_wave agents_config (set_seq 0 k) c = true.
Proof.
  intros Hback Hk. unfold refers_back in Hback.
  rewrite forallb_forall in Hback.
  specialize (Hback (k, c)). simpl in Hback.
  assert (In (k, c) (enumerate agents_config)) as Hin.
  { apply list_elem_of_In. by apply enumerate_elem. }
  specialize (Hback Hin). unfold joins_wave, dependencies_satisfied.
  destruct (default [] (cfg_depends_on c)) as [|d ds] eqn:Hdeps; [done|].
  rewrite <- Hdeps in *. clear Hdeps.
  rewrite forallb_forall in Hback. apply forallb_forall. intros dep Hdep.
  specialize (Hback dep Hdep). apply existsb_exists in Hback as (j & Hj & Hname).
  apply in_seq in Hj. unfold dep_found. apply existsb_exists.
  assert (j < length agents_config)%nat as Hlt.
  { apply lookup_lt_Some in Hk. lia. }
  apply lookup_lt_is_Some_2 in Hlt as [cj Hcj].
  exists (j, cj). split.
  - apply list_elem_of_In. by apply enumerate_elem.
  - rewrite Hname. rewrite orb_true_r. simpl. rewrite andb_true_r.
    apply bool_decide_eq_true. apply elem_of_set_seq. lia.
Qed.

Lemma scan_all_join agents_config l1 l2 wave :
  agents_config = l1 ++ l2 →
  (∀ k c, agents_config !! k = Some c → joins_wave agents_config (set_seq 0 k) c = true) →
  scan_requests agents_config (imap (λ j, pair (length l1 + j)) l2)
    (set_seq 0 (length l1)) wave
  = (wave ++ l2, set_seq 0 (length agents_config)).
Proof.
  intros Hcfg Hjoin. revert l1 wave Hcfg.
  induction l2 as [|c l2 IH]; intros l1 wave Hcfg.
  - simpl. subst. by rewrite !app_nil_r.
  - simpl. rewrite Nat.add_0_r.
    rewrite bool_decide_eq_false_2 by (rewrite elem_of_set_seq; lia).
    rewrite Hjoin by (subst; by rewrite list_lookup_middle).
    assert ({[length l1]} ∪ set_seq 0 (length l1) = (set_seq 0 (length (l1 ++ [c])) : gset nat))
      as ->.
    { rewrite length_app. simpl. apply set_eq. intros x.
      rewrite elem_of_union, elem_of_singleton, !elem_of_set_seq. lia. }
    rewrite (imap_ext _ (λ j, pair (length (l1 ++ [c]) + j))).
    + rewrite IH by (by rewrite <- app_assoc). by rewrite <- app_assoc.
    + intros j x _. simpl. rewrite length_app. simpl. f_equal. lia.
Qed.

Lemma single_wave agents_config :
  agents_config ≠ [] →
  (∀ k c, agents_config !! k = Some c → joins_wave agents_config (set_seq 0 k) c = true) →
  _organize_by_dependencies agents_config = [agents_config].
Proof.
  intros Hne Hjoin. unfold _organize_by_dependencies.
  cbn [waves_loop]. rewrite size_empty.
  destruct agents_config as [|c0 l] eqn:Hcfg; [done|]. rewrite <- Hcfg in *.
  assert (length agents_config = S (length l)) as Hlen by (by subst).
  case_decide; [|lia].
  pose proof (scan_all_join agents_config [] agents_config [] eq_refl Hjoin) as Hscan.
  simpl in Hscan.
  replace (scan_requests agents_config (enumerate agents_config) ∅ [])
    with (agents_config, set_seq (C:=gset nat) 0 (length agents_config)).
  rewrite Hcfg at 1. rewrite Hlen at 1. cbn [waves_loop].
  rewrite size_set_seq. case_decide; [lia|]. done.
Qed.

(** X5: When every dependency of every request is the index of an earlier
    request of the batch, written as text or as a number, each request
    finds its dependencies placed earlier in the same pass: the whole batch
    is one wave.  A batch without any dependency is one wave in
    particular. *)
Theorem back_references_one_wave (agents_config : list AgentConfig) :
  agents_config ≠ [] →
  refers_back agents_config = true →
  _organize_by_dependencies agents_config = [agents_config].
Proof.
  intros Hne Hback. apply single_wave; [done|].
  intros k c Hk. by apply refers_back_joins.
Qed.

Lemma back_references_one_wave_witness :
  _organize_by_dependencies
    [request "A" None; request "B" (Some [DStr "0"]); request "C" (Some [DInt 1; DStr "0"])]
  = [[request "A" None; request "B" (Some [DStr "0"]);
      request "C" (Some [DInt 1; DStr "0"])]].
Proof.
  apply (back_references_one_wave
           [request "A" None; request "B" (Some [DStr "0"]);
            request "C" (Some [DInt 1; DStr "0"])]).
  - discriminate.
  - reflexivity.
Defined.

(** Every dependency of a request that a pass places names a request
    placed by the end of that pass. *)
Lemma scan_requests_resolved agents_config todo placed wave :
  ∀ c, c ∈ (scan_requests agents_config todo placed wave).1 →
    c ∈ wave
    ∨ ∀ dep, dep ∈ default [] (cfg_depends_on c) →
        ∃ j other, agents_config !! j = Some other
                   ∧ names j other dep = true
                   ∧ j ∈ (scan_requests agents_config todo placed wave).2.
Proof.
  revert placed wave. induction todo as [|[i c0] todo IH]; intros placed wave c; simpl.
  { by left. }
  case_bool_decide; [apply IH|].
  destruct (joins_wave agents_config placed c0) eqn:Hjoins; [|apply IH].
  intros Hin. destruct (IH _ _ _ Hin) as [[Hwave|Hnew]%elem_of_app|Hresolved];
    [by left| |by right].
  apply list_elem_of_singleton in Hnew as ->. right. intros dep Hdep.
  unfold joins_wave in Hjoins.
  destruct (default [] (cfg_depends_on c0)) as [|d ds] eqn:Hdeps; [by inversion Hdep|].
  unfold dependencies_satisfied in Hjoins. rewrite forallb_forall in Hjoins.
  specialize (Hjoins dep). rewrite <- list_elem_of_In in Hjoins.
  specialize (Hjoins Hdep). unfold dep_found in Hjoins.
  apply existsb_exists in Hjoins as ([j other] & Hj & Hfound).
  rewrite <- list_elem_of_In in Hj. apply enumerate_elem_inv in Hj.
  apply andb_prop in Hfound as [Hplaced Hnames]. apply bool_decide_eq_true in Hplaced.
  exists j, other. split; [done|]. split; [done|].
  apply scan_requests_mono. set_solver.
Qed.

Lemma waves_loop_resolved fuel agents_config placed waves ws :
  placed ⊆ indices agents_config →
  concat waves ≡ₚ picked placed (enumerate agents_config) →
  (∀ k wave c dep,
     waves !! k = Some wave → c ∈ wave → dep ∈ default [] (cfg_depends_on c) →
     ∃ j other, agents_config !! j = Some other ∧ names j other dep = true
                ∧ other ∈ concat (take (S k) waves)) →
  waves_loop fuel agents_config placed waves = Some ws →
  ∀ k wave c dep,
    ws !! k = Some wave → S k < length ws →
    c ∈ wave → dep ∈ default [] (cfg_depends_on c) →
    ∃ j other, agents_config !! j = Some other ∧ names j other dep = true
               ∧ other ∈ concat (take (S k) ws).
Proof.
  revert placed waves.
  induction fuel as [|fuel IH]; intros placed waves Hsub Hperm Hgood Hrun; [done|].
  cbn [waves_loop] in Hrun. case_decide as Hsize.
  2:{ injection Hrun as <-. intros k wave c dep Hk _. by apply Hgood. }
  pose proof (scan_requests_resolved agents_config (enumerate agents_config) placed [])
    as Hresolved.
  destruct (scan_requests_spec agents_config (enumerate agents_config) placed [])
    as (wave' & placed' & Hscan & Hsub' & Hsup & Hwave).
  { apply enumerate_NoDup. }
  rewrite Hscan in Hrun, Hresolved. cbn [fst snd] in Hresolved.
  rewrite enumerate_fst in Hsup. fold (indices agents_config) in Hsup.
  simpl in Hwave.
  assert (concat waves ++ wave' ≡ₚ picked placed' (enumerate agents_config)) as Hperm'.
  { rewrite Hwave, Hperm. symmetry. by apply picked_split. }
  destruct wave' as [|c0 wave'].
  - assert (∀ k wave c dep,
              (waves ++ [remaining_agents agents_config placed']) !! k = Some wave →
              S k < length (waves ++ [remaining_agents agents_config placed']) →
              c ∈ wave → dep ∈ default [] (cfg_depends_on c) →
              ∃ j other, agents_config !! j = Some other ∧ names j other dep = true
                         ∧ other ∈ concat
                             (take (S k) (waves ++ [remaining_agents agents_config placed'])))
      as Hlast.
    { intros k wave c dep Hk Hlt Hc Hdep. rewrite length_app in Hlt. simpl in Hlt.
      rewrite lookup_app_l in Hk by lia. rewrite take_app_le by lia.
      by eapply Hgood. }
    destruct (remaining_agents agents_config placed') as [|r rs].
    + injection Hrun as <-. intros k wave c dep Hk _. by apply Hgood.
    + injection Hrun as <-. exact Hlast.
  - apply (IH placed' (waves ++ [c0 :: wave'])); [set_solver| |  |exact Hrun].
    { rewrite concat_app. simpl. by rewrite app_nil_r. }
    intros k wave c dep Hk Hc Hdep.
    destruct (decide (k < length waves)) as [Hlt|Hge].
    + rewrite lookup_app_l in Hk by done. rewrite take_app_le by lia. by eapply Hgood.
    + apply lookup_lt_Some in Hk as Hbound. rewrite length_app in Hbound. simpl in Hbound.
      assert (k = length waves) as -> by lia.
      rewrite list_lookup_middle in Hk by done. injection Hk as <-.
      rewrite take_ge by (rewrite length_app; simpl; lia).
      destruct (Hresolved c Hc) as [Hnil|Hdeps]; [by inversion Hnil|].
      destruct (Hdeps dep Hdep) as (j & other & Hj & Hnames & Hplaced).
      exists j, other. split; [done|]. split; [done|].
      rewrite concat_app. simpl. rewrite app_nil_r. rewrite Hperm'.
      apply (picked_elem _ _ j); [by apply enumerate_elem|done].
Qed.

(** X6: Every wave but the last holds only requests whose dependencies are
    resolved there: each dependency of each of its requests names a request
    of the batch that is in the same wave or in an earlier one.  (The last
    wave can be the fallback wave of the requests left over.) *)
Theorem dependencies_resolved_by_their_wave (agents_config : list AgentConfig)
    (k : nat) (wave : list AgentConfig) (agent_config : AgentConfig) (dep : Dep) :
  _organize_by_dependencies agents_config !! k = Some wave →
  S k < length (_organize_by_dependencies agents_config) →
  agent_config ∈ wave →
  dep ∈ default [] (cfg_depends_on agent_config) →
  ∃ j other_config,
    agents_config !! j = Some other_config
    ∧ names j other_config dep = true
    ∧ other_config ∈ concat (take (S k) (_organize_by_dependencies agents_config)).
Proof.
  destruct (waves_loop_total agents_config) as (ws & Hrun & -> & _).
  apply (waves_loop_resolved (S (length agents_config)) agents_config ∅ [] ws);
    [set_solver| | |exact Hrun].
  - simpl. rewrite picked_empty; [done|set_solver].
  - intros ? ? ? ? Hnil. by rewrite lookup_nil in Hnil.
Qed.

Lemma dependencies_resolved_by_their_wave_witness :
  ∃ j other_config,
    example_batch (DStr "0") !! j = Some other_config
    ∧ names j other_config (DStr "0") = true
    ∧ other_config ∈ concat (take 1 (_organize_by_dependencies (example_batch (DStr "0")))).
Proof.
  apply (dependencies_resolved_by_their_wave (example_batch (DStr "0")) 0
           [request "A" None; request "B" (Some [DStr "0"])]
           (request "B" (Some [DStr "0"])) (DStr "0")).
  - vm_compute. reflexivity.
  - vm_compute. lia.
  - right. left.
  - left.
Defined.

(** ** More on the single-agent spawn *)

Ltac unfold_spawn :=
  unfold _spawn_single_agent, execute, launch, spawn_failed, setup_dependency_monitoring,
    ensure_room, get_agent_tool_profile, claude_prompt, AgentService.create_agent,
    AgentService.update_agent_status, AgentService.update_agent_pid;
  repeat (progress run_monad).

(** Walks through the paths of one spawn call in program order, closing
    with [finish] each path on which the call has returned. *)
Ltac spawn_paths env depends_on auto_execute coordination_room finish :=
  unfold_spawn;
  generalize (join_check 0 (default [] depends_on)); intros joined;
  destruct (env_parse_ai_json env); simpl; try solve [finish];
  destruct (env_create_agent env) as [?|[[] [?|] ?]]; simpl; try solve [finish];
  destruct (default [] depends_on) as [|? ?]; simpl; try solve [finish];
  try (destruct (env_setup_dependency_monitoring env); simpl; try solve [finish]);
  destruct auto_execute; simpl; try solve [finish];
  destruct (env_spawn_claude_sync env); simpl; try solve [finish];
  destruct (nonempty coordination_room); simpl; try solve [finish];
  destruct (env_room env); simpl; try solve [finish];
  destruct (env_profile env); simpl; try solve [finish];
  destruct joined; simpl; try solve [finish];
  destruct (env_format env); simpl; try solve [finish];
  destruct (env_ctx env); simpl; try solve [finish];
  destruct (env_spawn_claude env) as [?|claude_result]; simpl; try solve [finish];
  try (destruct (validate_claude_result claude_result) eqn:?; simpl; try solve [finish]);
  destruct (env_update_agent_status env); simpl; try solve [finish];
  destruct (env_update_agent_pid env); simpl; try solve [finish].

Ltac trace_done :=
  rewrite <- ?app_assoc; simpl; eexists; split; [reflexivity|]; vm_compute; lia.

(** X7: One spawn call creates at most one record, makes at most one room call
    and none without a creation call, calls the launcher at most once and
    not without a room call, and writes the status and the process
    identifier at most once each, the status not without a launcher call
    and the identifier not without a status write. *)
Theorem spawn_call_budget (env : SpawnEnv)
    (agent_type repository_path task_description initial_context : string)
    (foundation_session_id coordination_room : string)
    (capabilities : option (list string)) (raw_configuration : RawConfiguration)
    (depends_on : option (list Dep)) (auto_execute : bool) (w : World) :
  ∃ calls,
    trace (_spawn_single_agent env agent_type repository_path task_description
             initial_context foundation_session_id coordination_room capabilities
             raw_configuration depends_on auto_execute w).2 = trace w ++ calls
    ∧ (count creation calls ≤ 1 ∧ count room_call calls ≤ count creation calls
       ∧ count launched calls ≤ count room_call calls
       ∧ count status_write calls ≤ count launched calls
       ∧ count pid_write calls ≤ count status_write calls)%nat.
Proof.
  spawn_paths env depends_on auto_execute coordination_room
    ltac:(first [trace_done | exists []; rewrite app_nil_r; split; [reflexivity|vm_compute; lia]]).
Qed.

Ltac frame_done :=
  let Hother := fresh "Hother" in
  intros Hother; simpl;
  rewrite ?lookup_alter_ne, ?lookup_insert_ne
    by (let Heq := fresh in intros Heq; subst; exact (Hother _ eq_refl eq_refl));
  reflexivity.

(** X8: One spawn call leaves every record alone except the one the store
    creates for it: a record stored under another identity is the same
    before and after the call, on every path. *)
Theorem spawn_touches_only_its_record (env : SpawnEnv)
    (agent_type repository_path task_description initial_context : string)
    (foundation_session_id coordination_room : string)
    (capabilities : option (list string)) (raw_configuration : RawConfiguration)
    (depends_on : option (list Dep)) (auto_execute : bool) (w : World) (other : string) :
  (∀ agent_result, env_create_agent env = inr agent_result →
                   AgentService.cr_agent_id agent_result ≠ Some other) →
  store (_spawn_single_agent env agent_type repository_path task_description
           initial_context foundation_session_id coordination_room capabilities
           raw_configuration depends_on auto_execute w).2 !! other
  = store w !! other.
Proof.
  spawn_paths env depends_on auto_execute coordination_room frame_done.
Qed.

Lemma spawn_touches_only_its_record_witness :
  store (sample_spawn env_launch_works).2 !! "agent-2222-bbbb" = None.
Proof.
  apply (spawn_touches_only_its_record env_launch_works "backend" "/repo" "build the API"
           "" "" "" None RawNone (Some [DStr "agent-0000-ffff"; DStr "architect"]) true
           empty_world "agent-2222-bbbb").
  intros agent_result Hcreate. inversion Hcreate. discriminate.
Defined.





Ltac pending_done :=
  let Hparse := fresh "Hparse" in
  let Hcreate := fresh "Hcreate" in
  let Hresult := fresh "Hresult" in
  intros [Hparse [? Hcreate]] Hresult; simpl in *;
  first
    [ discriminate Hparse
    | discriminate Hcreate
    | discriminate Hresult
    | inversion Hparse; inversion Hcreate; subst;
      split; [reflexivity|by rewrite lookup_insert_eq] ].

(** X10: When the record has been created and the call still returns an error
    dictionary (the launcher is not bound, dependency registration, room
    creation, the tool profile or the prompt fails), the store holds the
    record exactly as created: it stays PENDING and is not marked
    TERMINATED. *)
Theorem error_after_creation_leaves_pending (env : SpawnEnv)
    (agent_type repository_path task_description initial_context : string)
    (foundation_session_id coordination_room : string)
    (capabilities : option (list string)) (raw_configuration : RawConfiguration)
    (depends_on : option (list Dep)) (auto_execute : bool) (w : World)
    (agent_id : string) (parsed_configuration : option (gmap string PyVal))
    (code message : string) :
  record_created env agent_id parsed_configuration →
  (_spawn_single_agent env agent_type repository_path task_description
     initial_context foundation_session_id coordination_room capabilities
     raw_configuration depends_on auto_execute w).1 = inr (ToolError code message) →
  store (_spawn_single_agent env agent_type repository_path task_description
           initial_context foundation_session_id coordination_room capabilities
           raw_configuration depends_on auto_execute w).2
  = <[agent_id := AgentService.new_agent agent_id agent_type repository_path
                    (default [] capabilities) parsed_configuration]> (store w)
  ∧ status <$> store (_spawn_single_agent env agent_type repository_path task_description
                        initial_context foundation_session_id coordination_room
                        capabilities raw_configuration depends_on auto_execute w).2
               !! agent_id = Some PENDING.
Proof.
  unfold record_created.
  spawn_paths env depends_on auto_execute coordination_room pending_done.
Qed.

Lemma error_after_creation_leaves_pending_witness :
  store (sample_spawn env_no_launcher).2
  = <[ "agent-1111-aaaa" := AgentService.new_agent "agent-1111-aaaa" "backend" "/repo" []
                              None ]> ∅
  ∧ status <$> store (sample_spawn env_no_launcher).2 !! "agent-1111-aaaa" = Some PENDING.
Proof.
  apply (error_after_creation_leaves_pending env_no_launcher "backend" "/repo"
           "build the API" "" "" "" None RawNone
           (Some [DStr "agent-0000-ffff"; DStr "architect"]) true empty_world
           "agent-1111-aaaa" None "SPAWN_FUNCTION_UNAVAILABLE"
           "spawn_claude_sync function not available due to import failure").
  - split; [reflexivity|eexists; reflexivity].
  - reflexivity.
Defined.

Lemma join_check_strings i (strs : list string) : join_check i (DStr <$> strs) = None.
Proof. revert i. induction strs as [|s strs IH]; intros i; [done|]. simpl. apply IH. Qed.

Lemma join_check_first_number i (strs : list string) z rest :
  join_check i ((DStr <$> strs) ++ DInt z :: rest)
  = Some (TypeError (join_error (i + length strs))).
Proof.
  revert i. induction strs as [|s strs IH]; intros i; simpl.
  - by rewrite Nat.add_0_r.
  - rewrite IH. do 3 f_equal. lia.
Qed.

(** X11: A dependency list that holds a number makes the spawn fail while the
    prompt is built, after the record and the room exist and before the
    launcher is called: the call returns SPAWN_AGENT_FAILED with the
    message of the [TypeError] for the first number, and the launcher is
    not called. *)
Theorem numeric_dependency_fails_spawn (env : SpawnEnv)
    (agent_type repository_path task_description initial_context : string)
    (foundation_session_id coordination_room : string)
    (capabilities : option (list string)) (raw_configuration : RawConfiguration)
    (strs : list string) (z : Z) (rest : list Dep) (w : World)
    (agent_id : string) (parsed_configuration : option (gmap string PyVal))
    (dependency_info : gmap string PyVal) (profile : ToolProfile) :
  record_created env agent_id parsed_configuration →
  env_setup_dependency_monitoring env = inr dependency_info →
  env_spawn_claude_sync env = true →
  nonempty coordination_room = true ∨ env_room env = None →
  env_profile env = inr profile →
  ∃ calls,
    _spawn_single_agent env agent_type repository_path task_description
      initial_context foundation_session_id coordination_room capabilities
      raw_configuration (Some ((DStr <$> strs) ++ DInt z :: rest)) true w
    = (inr (ToolError "SPAWN_AGENT_FAILED" (join_error (length strs))),
       {| store := <[agent_id := AgentService.new_agent agent_id agent_type repository_path
                                   (default [] capabilities) parsed_configuration]> (store w);
          trace := trace w ++ calls |})
    ∧ count creation calls = 1 ∧ count room_call calls = 1 ∧ count launched calls = 0.
Proof.
  intros [Hparse [error Hcreate]] Hdeps Havail Hroom Hprofile.
  unfold_spawn. rewrite Hparse. simpl. rewrite Hcreate. simpl.
  rewrite (join_check_first_number 0 strs z rest). simpl.
  rewrite Havail, Hprofile. simpl.
  destruct ((DStr <$> strs) ++ DInt z :: rest) as [|d ds] eqn:Hlist.
  { by destruct strs. }
  rewrite Hdeps. simpl.
  destruct (nonempty coordination_room); simpl.
  - destruct (env_room env); simpl; rewrite <- ?app_assoc; simpl;
      eexists; (split; [reflexivity|done]).
  - destruct Hroom as [Hroom|Hroom]; [done|]. rewrite Hroom. simpl.
    rewrite <- ?app_assoc. simpl. eexists. split; [reflexivity|done].
Qed.

Lemma numeric_dependency_fails_spawn_witness :
  ∃ calls,
    _spawn_single_agent env_launch_works "backend" "/repo" "build the API" "" "" ""
      None RawNone (Some ((DStr <$> ["architect"]) ++ DInt 0 :: [])) true empty_world
    = (inr (ToolError "SPAWN_AGENT_FAILED" (join_error 1)),
       {| store := <[ "agent-1111-aaaa" := AgentService.new_agent "agent-1111-aaaa"
                                             "backend" "/repo" [] None ]> ∅;
          trace := [] ++ calls |})
    ∧ count creation calls = 1 ∧ count room_call calls = 1 ∧ count launched calls = 0.
Proof.
  apply (numeric_dependency_fails_spawn env_launch_works "backend" "/repo" "build the API"
           "" "" "" None RawNone ["architect"] 0%Z [] empty_world "agent-1111-aaaa" None
           {[ "success" := VBool true ]}
           {| allowed_tools := None; description := "Unknown agent type" |}).
  - split; [reflexivity|eexists; reflexivity].
  - reflexivity.
  - reflexivity.
  - right. reflexivity.
  - reflexivity.
Defined.

(** X12: With a caller-supplied coordination room, a failure of [join_room] has
    no effect on the call: the result and the world are the same as when
    the join works. *)
Theorem join_failure_is_swallowed (env : SpawnEnv)
    (agent_type repository_path task_description initial_context : string)
    (foundation_session_id coordination_room : string)
    (capabilities : option (list string)) (raw_configuration : RawConfiguration)
    (depends_on : option (list Dep)) (auto_execute : bool) (w : World) (e : Exn) :
  nonempty coordination_room = true →
  _spawn_single_agent (set_env_room (Some e) env) agent_type repository_path
    task_description initial_context foundation_session_id coordination_room capabilities
    raw_configuration depends_on auto_execute w
  = _spawn_single_agent (set_env_room None env) agent_type repository_path
      task_description initial_context foundation_session_id coordination_room capabilities
      raw_configuration depends_on auto_execute w.
Proof.
  intros Hroom. unfold_spawn. rewrite Hroom. reflexivity.
Qed.

Lemma join_failure_is_swallowed_witness :
  _spawn_single_agent (set_env_room (Some (RuntimeError "room is full")) env_launch_works)
    "backend" "/repo" "build the API" "" "" "team-room" None RawNone None true empty_world
  = _spawn_single_agent (set_env_room None env_launch_works)
      "backend" "/repo" "build the API" "" "" "team-room" None RawNone None true empty_world.
Proof.
  apply (join_failure_is_swallowed env_launch_works "backend" "/repo" "build the API" ""
           "" "team-room" None RawNone None true empty_world (RuntimeError "room is full")).
  reflexivity.
Defined.



(** ** Status read and termination, continued *)

Ltac unfold_status :=
  unfold get_agent_status, terminate_agent, AgentService.get_agent_by_id,
    AgentService.complete_agent, AgentService.terminate_agent;
  repeat (progress run_monad).

(** A status read of a record with a usable process identifier, once the
    record is read. *)
Lemma status_read_with_pid (env : StatusEnv) (agent_id : string) (a : Agent) (w : World) :
  env_get_agent_by_id env = None →
  store w !! agent_id = Some a →
  truthy_pid (claude_pid a) = true →
  get_agent_status env agent_id w
  = let pid := default 0%Z (claude_pid a) in
    let probed := trace w ++ [CallGetAgentById agent_id; CallProbe pid] in
    let completed :=
      match env_complete_agent env with
      | None =>
          (inr (ToolSuccess {| view_record := a; view_status := COMPLETED;
                               view_process_status := Some "completed" |}),
           {| store := alter (AgentService.set_status COMPLETED ∅) agent_id (store w);
              trace := probed ++ [CallCompleteAgent agent_id] |})
      | Some e =>
          (inr (ToolError "GET_STATUS_FAILED" (exn_msg e)),
           {| store := store w; trace := probed ++ [CallCompleteAgent agent_id] |})
      end in
    match env_probe env with
    | IsRunning =>
        (inr (ToolSuccess {| view_record := a; view_status := ACTIVE;
                             view_process_status := Some "running" |}),
         {| store := store w; trace := probed |})
    | ProbeRaises e =>
        (inr (ToolError "GET_STATUS_FAILED" (exn_msg e)), {| store := store w; trace := probed |})
    | _ => completed
    end.
Proof.
  intros Hget Hstored Hpid. unfold_status. rewrite Hget. simpl. rewrite Hstored. simpl.
  rewrite Hpid. simpl.
  destruct (env_probe env); simpl; try destruct (env_complete_agent env); simpl;
    by rewrite <- ?app_assoc.
Qed.

(** X14: A status read of an agent whose recorded process is running answers
    with the status "active" whatever the stored status is, and writes
    nothing: the stored status stays as it was. *)
Theorem status_read_running_process (env : StatusEnv) (agent_id : string)
    (a : Agent) (w : World) :
  env_get_agent_by_id env = None →
  store w !! agent_id = Some a →
  truthy_pid (claude_pid a) = true →
  env_probe env = IsRunning →
  get_agent_status env agent_id w
  = (inr (ToolSuccess {| view_record := a; view_status := ACTIVE;
                         view_process_status := Some "running" |}),
     {| store := store w;
        trace := trace w ++ [CallGetAgentById agent_id;
                             CallProbe (default 0%Z (claude_pid a))] |}).
Proof.
  intros Hget Hstored Hpid Hprobe.
  rewrite (status_read_with_pid env agent_id a w Hget Hstored Hpid). by rewrite Hprobe.
Qed.

Lemma status_read_running_process_witness :
  get_agent_status env_process_running "agent-1111-aaaa"
    (world_with (stored_agent "agent-1111-aaaa" TERMINATED (Some 4242%Z)))
  = (inr (ToolSuccess {| view_record := stored_agent "agent-1111-aaaa" TERMINATED (Some 4242%Z);
                         view_status := ACTIVE; view_process_status := Some "running" |}),
     {| store := {[ "agent-1111-aaaa" := stored_agent "agent-1111-aaaa" TERMINATED (Some 4242%Z) ]};
        trace := [] ++ [CallGetAgentById "agent-1111-aaaa"; CallProbe 4242] |}).
Proof.
  apply (status_read_running_process env_process_running "agent-1111-aaaa"
           (stored_agent "agent-1111-aaaa" TERMINATED (Some 4242%Z))
           (world_with (stored_agent "agent-1111-aaaa" TERMINATED (Some 4242%Z))));
    reflexivity.
Defined.

Ltac status_done :=
  eexists _, _, _; (split; [reflexivity|]);
  split_and!;
    [vm_compute; lia
    |vm_compute; lia
    |intros other Hother; by rewrite ?lookup_alter_ne
    |intros ? ? [= <- _] || (intros ? ? ?; discriminate); (split; [set_solver|done])].

(** X15: A status read never raises, probes at most one process and asks for a
    completion only after a probe; it leaves the records of all other
    agents alone; and when it answers with an error dictionary, the code is
    AGENT_NOT_FOUND or GET_STATUS_FAILED and the store is unchanged. *)
Theorem status_read_is_contained (env : StatusEnv) (agent_id : string) (w : World) :
  ∃ result calls st,
    get_agent_status env agent_id w
    = (inr result, {| store := st; trace := trace w ++ calls |})
    ∧ (count completion calls ≤ count probe calls)%nat
    ∧ (count probe calls ≤ 1)%nat
    ∧ (∀ other, other ≠ agent_id → st !! other = store w !! other)
    ∧ (∀ code message, result = ToolError code message →
         code ∈ status_error_codes ∧ st = store w).
Proof.
  unfold_status. unfold status_error_codes.
  destruct (env_get_agent_by_id env); simpl; [status_done|].
  destruct (store w !! agent_id) as [a|]; simpl; [|status_done].
  destruct (truthy_pid (claude_pid a)); simpl; [|status_done].
  destruct (env_probe env); simpl; try destruct (env_complete_agent env); simpl;
    rewrite <- ?app_assoc; simpl; status_done.
Qed.

(** X16: The tool [terminate_agent] never raises and makes one call; it leaves
    the records of all other agents alone.  An error dictionary has the
    code AGENT_NOT_FOUND or TERMINATE_FAILED and comes with an unchanged
    store; a confirmation names the agent and the reason and comes with the
    record TERMINATED. *)
Theorem termination_is_contained (failure : option Exn) (agent_id reason : string)
    (w : World) :
  ∃ result st,
    terminate_agent failure agent_id reason w
    = (inr result, {| store := st; trace := trace w ++ [CallTerminateAgent agent_id] |})
    ∧ (∀ other, other ≠ agent_id → st !! other = store w !! other)
    ∧ match result with
      | ToolError code _ => code ∈ terminate_error_codes ∧ st = store w
      | ToolSuccess t =>
          t = {| term_agent_id := agent_id; term_reason := reason;
                 term_status := "terminated" |}
          ∧ status <$> st !! agent_id = Some TERMINATED
      end.
Proof.
  unfold_status. unfold terminate_error_codes.
  destruct failure; simpl.
  { eexists _, _. split; [reflexivity|]. split; [done|]. split; [set_solver|done]. }
  destruct (store w !! agent_id) as [a|] eqn:Hstored; simpl.
  2:{ eexists _, _. split; [reflexivity|]. split; [done|]. split; [set_solver|done]. }
  destruct (is_terminal (status a)); simpl.
  { eexists _, _. split; [reflexivity|]. split; [done|]. split; [set_solver|done]. }
  eexists _, _. split; [reflexivity|]. split.
  - intros other Hother. by rewrite lookup_alter_ne.
  - split; [done|]. by rewrite lookup_alter_eq, Hstored.
Qed.

(** X17: Once an agent is terminated, a second termination request is refused
    with AGENT_NOT_FOUND and changes nothing. *)
Theorem second_termination_is_refused (agent_id reason reason' : string)
    (confirmation : Termination) (w w' : World) :
  terminate_agent None agent_id reason w = (inr (ToolSuccess confirmation), w') →
  terminate_agent None agent_id reason' w'
  = (inr (ToolError "AGENT_NOT_FOUND" "Agent not found or already terminated"),
     {| store := store w'; trace := trace w' ++ [CallTerminateAgent agent_id] |}).
Proof.
  unfold_status.
  destruct (store w !! agent_id) as [a|] eqn:Hstored; simpl; [|done].
  destruct (is_terminal (status a)); simpl; [done|].
  intros [= _ <-]. simpl. by rewrite lookup_alter_eq, Hstored.
Qed.

Lemma second_termination_is_refused_witness :
  (terminate_agent None "agent-1111-aaaa" "again"
     (terminate_agent None "agent-1111-aaaa" "budget exhausted"
        (world_with launched_agent)).2).1
  = inr (ToolError "AGENT_NOT_FOUND" "Agent not found or already terminated").
Proof.
  rewrite (second_termination_is_refused "agent-1111-aaaa" "budget exhausted" "again"
             {| term_agent_id := "agent-1111-aaaa"; term_reason := "budget exhausted";
                term_status := "terminated" |}
             (world_with launched_agent)
             (terminate_agent None "agent-1111-aaaa" "budget exhausted"
                (world_with launched_agent)).2).
  - reflexivity.
  - reflexivity.
Defined.





(** ** The batch coordinator, continued *)

Lemma validate_agents_valid i (agents_config : list AgentConfig) :
  Forall (λ c, has_required_fields c = true) agents_config →
  validate_agents i (Dict <$> agents_config) = inr agents_config.
Proof.
  intros Hall. revert i. induction Hall as [|c cs Hc _ IH]; intros i; simpl; [done|].
  unfold has_required_fields in Hc.
  destruct (cfg_agent_type c); [|done]. destruct (cfg_task_description c); [|done].
  by rewrite IH.
Qed.

Lemma validate_agents_first_invalid i (good : list AgentConfig) (bad : JsonEntry)
    (rest : list JsonEntry) :
  Forall (λ c, has_required_fields c = true) good →
  invalid_entry bad = true →
  ∃ code detail,
    validate_agents i ((Dict <$> good) ++ bad :: rest)
    = inl (code, "Agent " +:+ pretty (i + length good) +:+ detail)
    ∧ code ∈ validation_error_codes.
Proof.
  intros Hall Hbad. revert i. induction Hall as [|c cs Hc _ IH]; intros i.
  - simpl. rewrite Nat.add_0_r. unfold validation_error_codes.
    destruct bad as [|c]; simpl in *.
    + eexists _, _. split; [reflexivity|set_solver].
    + unfold has_required_fields in Hbad.
      destruct (cfg_agent_type c); [destruct (cfg_task_description c); [done|]|];
        eexists _, _; (split; [reflexivity|set_solver]).
  - rewrite fmap_cons, <- app_comm_cons. cbn [validate_agents length].
    unfold has_required_fields in Hc.
    destruct (cfg_agent_type c); [|done]. destruct (cfg_task_description c); [|done].
    destruct (IH (S i)) as (code & detail & -> & Hcode).
    exists code, detail. split; [|done]. by rewrite Nat.add_succ_r.
Qed.

(** X19: Validation is all or nothing: when some entry of the list is not a
    dictionary or lacks a required field, the batch is turned down with an
    error that names the position of the first such entry, and no spawn
    call is made, not even for the valid requests before it. *)
Theorem invalid_entry_rejects_whole_batch
    (spawn : AgentConfig → M (ToolResult SpawnPayload))
    (good : list AgentConfig) (bad : JsonEntry) (rest : list JsonEntry)
    (coordination_mode : CoordinationMode) (w : World) :
  Forall (λ c, has_required_fields c = true) good →
  invalid_entry bad = true →
  ∃ code detail,
    spawn_agents_batch_with spawn ((Dict <$> good) ++ bad :: rest) coordination_mode w
    = (ToolError code ("Agent " +:+ pretty (length good) +:+ detail), w)
    ∧ code ∈ validation_error_codes.
Proof.
  intros Hgood Hbad.
  destruct (validate_agents_first_invalid 0 good bad rest Hgood Hbad)
    as (code & detail & Hv & Hcode).
  exists code, detail. split; [|done].
  unfold spawn_agents_batch_with. rewrite Hv.
  by destruct ((Dict <$> good) ++ bad :: rest) eqn:Hlist; [destruct good|].
Qed.

Lemma invalid_entry_rejects_whole_batch_witness :
  ∃ code detail,
    spawn_agents_batch reordered_envs "/repo"
      ((Dict <$> [request "implementer" None]) ++ NotADict :: [Dict (request "tester" None)])
      None parallel 5 None empty_world
    = (ToolError code ("Agent " +:+ pretty 1 +:+ detail), empty_world)
    ∧ code ∈ validation_error_codes.
Proof.
  apply (invalid_entry_rejects_whole_batch
           (spawn_request reordered_envs "/repo" None None)
           [request "implementer" None] NotADict [Dict (request "tester" None)]
           parallel empty_world).
  - repeat constructor.
  - reflexivity.
Defined.

Lemma process_results_spec agents_config results successful_agents failed_agents s f :
  process_results agents_config results successful_agents failed_agents = inr (s, f) →
  s = successful_agents ++ omap success_of results.*2
  ∧ failed_error <$> f = (failed_error <$> failed_agents) ++ omap failure_of results.*2
  ∧ ∀ x, x ∈ f →
      x ∈ failed_agents
      ∨ ∃ result, (failed_index x, result) ∈ results
                  ∧ failure_of result = Some (failed_error x)
                  ∧ agents_config !! failed_index x = Some (failed_agent_config x).
Proof.
  revert successful_agents failed_agents.
  induction results as [|[i result] results IH]; intros ss fs Hrun; simpl in Hrun.
  - injection Hrun as <- <-. simpl. rewrite !app_nil_r. split_and!; [done..|]. by left.
  - unfold config_at in Hrun.
    assert (∀ error c,
              failure_of result = Some error →
              agents_config !! i = Some c →
              process_results agents_config results ss
                (fs ++ [{| failed_index := i; failed_agent_config := c;
                           failed_error := error |}]) = inr (s, f) →
              s = ss ++ omap success_of ((i, result) :: results).*2
              ∧ failed_error <$> f
                = (failed_error <$> fs) ++ omap failure_of ((i, result) :: results).*2
              ∧ ∀ x, x ∈ f →
                  x ∈ fs
                  ∨ ∃ r, (failed_index x, r) ∈ (i, result) :: results
                         ∧ failure_of r = Some (failed_error x)
                         ∧ agents_config !! failed_index x = Some (failed_agent_config x))
      as Hfail.
    { intros error c Herror Hc Hrest.
      destruct (IH _ _ Hrest) as (-> & Hf & Hx).
      assert (success_of result = None) as Hnone.
      { destruct result as [e|[code message|p]]; simpl in *; try done.
        by destruct (sp_success p). }
      simpl. rewrite Hnone, Herror. split; [done|]. split.
      - rewrite Hf, fmap_app. simpl. by rewrite <- app_assoc.
      - intros x Hin. destruct (Hx x Hin) as [[Hfs|Hnew]%elem_of_app|(r & Hr & Hrest')].
        + by left.
        + apply list_elem_of_singleton in Hnew. subst x. simpl. right.
          exists result. split; [left|done].
        + right. exists r. split; [by right|done]. }
    destruct result as [e|[code message|p]].
    + destruct (agents_config !! i) as [c|] eqn:Hc; [|done]. by eapply Hfail.
    + destruct (agents_config !! i) as [c|] eqn:Hc; [|done]. by eapply Hfail.
    + destruct (sp_success p) eqn:Hp.
      * destruct (IH _ _ Hrun) as (-> & Hf & Hx). simpl. rewrite Hp.
        split; [by rewrite <- app_assoc|]. split; [done|].
        intros x Hin. destruct (Hx x Hin) as [Hfs|(r & Hr & Hrest')]; [by left|].
        right. exists r. split; [by right|done].
      * destruct (agents_config !! i) as [c|] eqn:Hc; [|done].
        eapply Hfail; [|done..]. simpl. by rewrite Hp.
Qed.

Section BatchOutcomes.

Variable spawn : AgentConfig → M (ToolResult SpawnPayload).



End BatchOutcomes.





Lemma launch_never_raises (env : SpawnEnv)
    (agent_type repository_path task_description foundation_session_id : string)
    (agent_id room_name prompt : string)
    (parsed_configuration : option (gmap string PyVal)) (depends_on : list Dep) (w : World) :
  ∃ claude_pid outcome w',
    launch env agent_type repository_path task_description foundation_session_id agent_id
      room_name prompt parsed_configuration depends_on w
    = (inr (claude_pid, outcome), w').
Proof.
  unfold launch, AgentService.update_agent_status, AgentService.update_agent_pid.
  repeat (progress run_monad).
  destruct (env_profile env); simpl; [by eexists _, _, _|].
  destruct (env_ctx env); simpl.
  all: destruct (env_spawn_claude env) as [?|claude_result]; simpl; [by eexists _, _, _|].
  all: destruct (validate_claude_result claude_result); simpl; [by eexists _, _, _|].
  all: destruct (env_update_agent_status env); simpl.
  all: destruct (env_update_agent_pid env); simpl; by eexists _, _, _.
Qed.

(** Once the record is created and the launching [try] is reached, the
    call for a request returns a dictionary with a true ["success"],
    whatever the launcher answers. *)
Lemma spawn_request_succeeds (envs : AgentConfig → SpawnEnv) (repository_path : string)
    (foundation_session_id coordination_room : option string) (agent_config : AgentConfig)
    (agent_id : string) (parsed_configuration : option (gmap string PyVal))
    (dependency_info : gmap string PyVal) (prompt : string) (w : World) :
  has_required_fields agent_config = true →
  record_created (envs agent_config) agent_id parsed_configuration →
  launcher_reached (envs agent_config) (default "" coordination_room)
    (default [] (cfg_depends_on agent_config)) dependency_info prompt →
  ∃ p w',
    spawn_request envs repository_path foundation_session_id coordination_room agent_config w
    = (inr (ToolSuccess p), w')
    ∧ sp_success p = true.
Proof.
  intros Hfields Hcreated Hreached. unfold spawn_request, has_required_fields in *.
  destruct (cfg_agent_type agent_config) as [agent_type|]; [|done].
  destruct (cfg_task_description agent_config) as [task_description|]; [|done].
  rewrite (spawn_reaches_launcher _ _ _ _ _ _ _ _ _
             (Some (default [] (cfg_depends_on agent_config))) _ _ _ _ _ Hcreated Hreached).
  cbv zeta.
  match goal with
  | |- context [launch ?e ?t ?r ?d ?f ?i ?n ?p ?c ?ds ?w0] =>
      destruct (launch_never_raises e t r d f i n p c ds w0)
        as (claude_pid & [failure|execution_info] & w2 & ->)
  end.
  - rewrite spawn_failed_spec. by eexists _, _.
  - by eexists _, _.
Qed.

Section AllSucceed.

Variable spawn : AgentConfig → M (ToolResult SpawnPayload).

Lemma outcomes_all_succeed configs w :
  (∀ c, c ∈ configs →
        ∀ w, ∃ p w', spawn c w = (inr (ToolSuccess p), w') ∧ sp_success p = true) →
  omap failure_of (outcomes spawn configs w).1 = []
  ∧ length (omap success_of (outcomes spawn configs w).1) = length configs.
Proof.
  revert w. induction configs as [|c configs IH]; intros w Hall; simpl; [done|].
  destruct (Hall c (list_elem_of_here _ _) w) as (p & w1 & -> & Hp).
  destruct (IH w1) as [Hf Hs].
  { intros c' Hc'. apply Hall. by right. }
  destruct (outcomes spawn configs w1) as [results w2]. cbn [fst] in *.
  assert (success_of (inr (ToolSuccess p)) = Some p) as Hsuccess by (simpl; by rewrite Hp).
  assert (failure_of (inr (ToolSuccess p)) = None) as Hfailure by (simpl; by rewrite Hp).
  change (omap failure_of (inr (ToolSuccess p) :: results))
    with (match failure_of (inr (ToolSuccess p)) with
          | Some e => e :: omap failure_of results
          | None => omap failure_of results
          end).
  change (omap success_of (inr (ToolSuccess p) :: results))
    with (match success_of (inr (ToolSuccess p)) with
          | Some e => e :: omap success_of results
          | None => omap success_of results
          end).
  rewrite Hsuccess, Hfailure. cbn [length]. by rewrite Hs.
Qed.

End AllSucceed.

(** X22: When for every request the record is created and the launching [try]
    is reached, the batch result has no failed entry and counts every
    request as successful, whatever the launcher answers: a request whose
    launch is refused is listed under ["successful_agents"]. *)
Theorem refused_launches_count_as_successful (envs : AgentConfig → SpawnEnv)
    (repository_path : string) (agents_config : list AgentConfig)
    (foundation_session_id : option string) (coordination_mode : CoordinationMode)
    (max_concurrent : nat) (coordination_room : option string) (w : World) :
  agents_config ≠ [] →
  Forall (λ c, has_required_fields c = true) agents_config →
  (∀ c, c ∈ agents_config →
     ∃ agent_id parsed_configuration dependency_info prompt,
       record_created (envs c) agent_id parsed_configuration
       ∧ launcher_reached (envs c) (default "" coordination_room)
           (default [] (cfg_depends_on c)) dependency_info prompt) →
  ∃ r w',
    spawn_agents_batch envs repository_path (Dict <$> agents_config) foundation_session_id
      coordination_mode max_concurrent coordination_room w
    = (ToolSuccess r, w')
    ∧ failed_agents r = []
    ∧ failed r = 0
    ∧ successful r = length agents_config
    ∧ length (successful_agents r) = length agents_config.
Proof.
  intros Hnonempty Hfields Hreached.
  unfold spawn_agents_batch, spawn_agents_batch_with.
  rewrite (validate_agents_valid 0 _ Hfields).
  destruct (Dict <$> agents_config) eqn:Hlist; [by destruct agents_config|]. clear Hlist.
  rewrite batch_results_order.
  set (spawn := spawn_request envs repository_path foundation_session_id coordination_room).
  destruct (outcomes_all_succeed spawn (spawn_order coordination_mode agents_config) w)
    as [Hnone Hall].
  { intros c Hc w0. rewrite spawn_order_perm in Hc.
    destruct (Hreached c Hc) as (id & pc & di & prompt & Hcreated & Hlaunch).
    eapply spawn_request_succeeds; [|done..].
    by eapply Forall_forall in Hfields. }
  pose proof (outcomes_length spawn (spawn_order coordination_mode agents_config) w) as Hlen.
  destruct (outcomes spawn (spawn_order coordination_mode agents_config) w)
    as [results w1]. simpl in *.
  rewrite (Permutation_length (spawn_order_perm coordination_mode agents_config)) in Hall, Hlen.
  destruct (process_results_length agents_config (enumerate results) [] [])
    as (s & f & Hprocess & _).
  { intros i o Hin. apply enumerate_index_lt in Hin. lia. }
  rewrite Hprocess.
  destruct (process_results_spec _ _ _ _ _ _ Hprocess) as (Hs & Hf & _).
  rewrite enumerate_snd in Hs, Hf. simpl in Hs, Hf. rewrite Hnone in Hf.
  apply fmap_nil_inv in Hf. subst s f.
  eexists _, _. split; [reflexivity|]. simpl. by rewrite Hall.
Qed.

Lemma refused_launches_count_as_successful_witness :
  ∃ r w',
    spawn_agents_batch refused_launch_envs "/repo" (Dict <$> reordered_batch) None
      parallel 5 None empty_world
    = (ToolSuccess r, w')
    ∧ failed_agents r = []
    ∧ failed r = 0
    ∧ successful r = length reordered_batch
    ∧ length (successful_agents r) = length reordered_batch.
Proof.
  apply (refused_launches_count_as_successful refused_launch_envs "/repo" reordered_batch
           None parallel 5 None empty_world).
  - discriminate.
  - repeat constructor.
  - intros c Hc. exists ("agent-" +:+ default "" (cfg_agent_type c)), None.
    unfold reordered_batch in Hc.
    apply elem_of_cons in Hc as [->|Hc]; [|apply list_elem_of_singleton in Hc as ->].
    + exists {[ "success" := VBool true ]}, "prompt".
      split; [split; [reflexivity|eexists; reflexivity]|constructor; simpl; eauto].
    + exists ∅, "prompt".
      split; [split; [reflexivity|eexists; reflexivity]|constructor; simpl; eauto].
Defined.

(** ** The concurrency gate, continued *)

Lemma count_insert (s old new : TaskState) (l : list TaskState) (i : nat) :
  l !! i = Some old →
  length (filter (λ t, t = s) (<[i := new]> l)) + (if decide (old = s) then 1 else 0)
  = length (filter (λ t, t = s) l) + (if decide (new = s) then 1 else 0).
Proof.
  revert i. induction l as [|t l IH]; intros i Hi; [done|].
  destruct i as [|i].
  - injection Hi as ->. change (<[0:=new]> (old :: l)) with (new :: l).
    rewrite !filter_cons. repeat case_decide; cbn [length]; lia.
  - change (<[S i:=new]> (t :: l)) with (t :: <[i:=new]> l).
    change ((t :: l) !! S i) with (l !! i) in Hi.
    rewrite !filter_cons. specialize (IH i Hi).
    destruct (decide (t = s)); cbn [length]; lia.
Qed.

Lemma count_replicate_other (s t : TaskState) (n : nat) :
  t ≠ s → length (filter (λ t, t = s) (replicate n t)) = 0.
Proof.
  intros Hne. induction n as [|n IH]; [done|].
  cbn [replicate]. by rewrite filter_cons_False.
Qed.

Lemma count_replicate_same (s : TaskState) (n : nat) :
  length (filter (λ t, t = s) (replicate n s)) = n.
Proof.
  induction n as [|n IH]; [done|].
  cbn [replicate]. rewrite filter_cons_True by done. cbn [length]. by rewrite IH.
Qed.

Lemma count_zero (s : TaskState) (l : list TaskState) :
  length (filter (λ t, t = s) l) = 0 → s ∉ l.
Proof.
  induction l as [|t l IH]; [intros _; apply not_elem_of_nil|].
  rewrite filter_cons. case_decide as Ht; cbn [length]; [done|].
  intros Hl. apply not_elem_of_cons. split; [congruence|by apply IH].
Qed.

Lemma count_positive (s : TaskState) (l : list TaskState) :
  0 < length (filter (λ t, t = s) l) → ∃ i, l !! i = Some s.
Proof.
  intros Hpos. destruct (decide (s ∈ l)) as [Hin|Hout].
  - by apply list_elem_of_lookup in Hin.
  - exfalso. induction l as [|t l IH]; [simpl in Hpos; lia|].
    apply not_elem_of_cons in Hout as [Hne Hout].
    rewrite filter_cons_False in Hpos by congruence. by apply IH.
Qed.

(** Each step takes one of the remaining steps. *)
Lemma gate_step_measure (g g' : Gate) :
  gate_step g g' → S (steps_left g') = steps_left g.
Proof.
  intros [g0 i Hwait Hfree|g0 i Hheld]; unfold steps_left, in_flight; cbn [tasks permits].
  - pose proof (count_insert Waiting Waiting InFlight _ i Hwait) as Hw.
    pose proof (count_insert InFlight Waiting InFlight _ i Hwait) as Hf.
    repeat case_decide; try done. lia.
  - pose proof (count_insert Waiting InFlight Finished _ i Hheld) as Hw.
    pose proof (count_insert InFlight InFlight Finished _ i Hheld) as Hf.
    repeat case_decide; try done. lia.
Qed.

Lemma gate_steps_measure (k : nat) (g g' : Gate) :
  nsteps gate_step k g g' → k + steps_left g' = steps_left g.
Proof.
  induction 1 as [|k g g1 g2 Hstep _ IH]; [done|].
  apply gate_step_measure in Hstep. lia.
Qed.

Lemma gate_run_measure (k value n : nat) (g : Gate) :
  nsteps gate_step k (gate value n) g → k + steps_left g = 2 * n.
Proof.
  intros Hrun. apply gate_steps_measure in Hrun. rewrite Hrun.
  unfold steps_left, in_flight, gate. cbn [tasks].
  rewrite count_replicate_same, count_replicate_other by done. lia.
Qed.

Lemma steps_left_zero (g : Gate) : steps_left g = 0 ↔ all_finished g.
Proof.
  unfold steps_left, in_flight, all_finished. split.
  - intros Hzero. apply Forall_forall. intros t Ht.
    assert (Waiting ∉ tasks g) as Hw by (apply count_zero; lia).
    assert (InFlight ∉ tasks g) as Hf by (apply count_zero; lia).
    destruct t; done.
  - intros Hall.
    assert (∀ s, s ≠ Finished → length (filter (λ t, t = s) (tasks g)) = 0) as Hcount.
    { intros s Hs. induction Hall as [|t l -> _ IH]; [done|].
      by rewrite filter_cons_False by done. }
    rewrite !Hcount by done. done.
Qed.

(** X23: The gate never deadlocks: with [max_concurrent] at least 1, in parallel
    mode and within every wave, whatever the interleaving so far, either
    every task is through with its call or some task can take a step. *)
Theorem gate_never_deadlocks (max_concurrent : nat) (agents_config : list AgentConfig) :
  (1 ≤ max_concurrent)%nat →
  (∀ g, rtc gate_step (parallel_gate max_concurrent agents_config) g →
        all_finished g ∨ ∃ g', gate_step g g')
  ∧ (∀ wave g,
       wave ∈ _organize_by_dependencies agents_config →
       rtc gate_step (wave_gate max_concurrent wave) g →
       all_finished g ∨ ∃ g', gate_step g g').
Proof.
  intros Hmax.
  assert (∀ value n g,
            (n = 0 ∨ 0 < value)%nat →
            rtc gate_step (gate value n) g →
            all_finished g ∨ ∃ g', gate_step g g') as Hgate.
  { intros value n g Hvalue Hreach.
    pose proof (gate_invariant _ _ Hreach) as Hinv.
    rewrite in_flight_initial in Hinv. cbn [gate permits] in Hinv.
    apply rtc_nsteps in Hreach as [k Hrun]. apply gate_run_measure in Hrun.
    destruct (decide (0 < in_flight g)) as [Hheld|Hnone].
    { apply count_positive in Hheld as [i Hi]. right. eexists. by apply (release g i). }
    destruct (decide (0 < length (filter (λ t, t = Waiting) (tasks g)))) as [Hwait|Hnowait].
    { apply count_positive in Hwait as [i Hi]. right. eexists. apply (acquire g i); [done|].
      assert (0 < length (filter (λ t, t = Waiting) (tasks g))) as Hpos.
      { destruct (decide (0 < length (filter (λ t, t = Waiting) (tasks g)))); [done|].
        exfalso. apply (count_zero Waiting (tasks g)); [lia|].
        apply list_elem_of_lookup. eauto. }
      unfold steps_left in Hrun. destruct Hvalue as [->|Hvalue]; lia. }
    left. apply steps_left_zero. unfold steps_left. lia. }
  split.
  - intros g Hreach. apply (Hgate _ _ _ (or_intror Hmax) Hreach).
  - intros wave g _ Hreach. apply (Hgate _ _ g) in Hreach; [done|].
    destruct wave; [by left|right; simpl; lia].
Qed.

Lemma gate_never_deadlocks_witness :
  (all_finished {| permits := 0; tasks := [InFlight; Waiting] |}
   ∨ ∃ g', gate_step {| permits := 0; tasks := [InFlight; Waiting] |} g')
  ∧ (all_finished {| permits := 0; tasks := [InFlight] |}
     ∨ ∃ g', gate_step {| permits := 0; tasks := [InFlight] |} g').
Proof.
  destruct (gate_never_deadlocks 1 reordered_batch) as [Hpar Hwave]; [lia|].
  split.
  - apply Hpar. apply rtc_once.
    apply (acquire (parallel_gate 1 reordered_batch) 0); simpl; [reflexivity|lia].
  - apply (Hwave [request "tester" None]).
    + rewrite organize_reordered. left.
    + apply rtc_once.
      apply (acquire (wave_gate 1 [request "tester" None]) 0); simpl; [reflexivity|lia].
Defined.

(** X24: Every interleaving ends: a run of the tasks of one gather takes at most
    two steps per request, and it has taken exactly that many when, and
    only when, every task is through with its call. *)
Theorem gate_runs_are_bounded (max_concurrent : nat) (agents_config : list AgentConfig)
    (k : nat) (g : Gate) :
  nsteps gate_step k (parallel_gate max_concurrent agents_config) g →
  (k ≤ 2 * length agents_config)%nat
  ∧ (all_finished g ↔ k = 2 * length agents_config).
Proof.
  intros Hrun. apply gate_run_measure in Hrun. split; [lia|].
  rewrite <- steps_left_zero. lia.
Qed.

Lemma gate_runs_are_bounded_witness :
  (1 ≤ 2 * length reordered_batch)%nat
  ∧ (all_finished {| permits := 0; tasks := [InFlight; Waiting] |}
     ↔ 1 = 2 * length reordered_batch).
Proof.
  apply (gate_runs_are_bounded 1 reordered_batch 1).
  apply nsteps_once.
  apply (acquire (parallel_gate 1 reordered_batch) 0); simpl; [reflexivity|lia].
Defined.

(** ** The listing *)

Lemma count_rows_spec (agents_list : list AgentRow) :
  count_rows agents_list
  = (foldl (λ counts agent, count_key (status_key agent) counts) ∅ agents_list,
     foldl (λ counts agent, count_key (type_key agent) counts) ∅ agents_list).
Proof.
  unfold count_rows. generalize (∅ : gmap string nat) at 1 3.
  generalize (∅ : gmap string nat).
  induction agents_list as [|agent agents_list IH]; intros tc sc; [done|].
  simpl. apply IH.
Qed.

Lemma counted_count_key (key : string) (counts : gmap string nat) :
  counted (count_key key counts) = S (counted counts).
Proof.
  unfold counted, count_key.
  assert (∀ (j1 j2 : string) (z1 z2 y : nat),
            z1 + (z2 + y) = z2 + (z1 + y)) as Hcomm by (intros; lia).
  destruct (counts !! key) as [n|] eqn:Hkey; simpl.
  - rewrite <- (insert_delete_eq counts key (S n)).
    rewrite (map_fold_insert_L _ _ _ _ (delete key counts)); [|by auto|by rewrite lookup_delete_eq].
    rewrite <- (insert_delete_id counts key n Hkey) at 2.
    rewrite (map_fold_insert_L _ _ _ _ (delete key counts)); [|by auto|by rewrite lookup_delete_eq].
    lia.
  - by rewrite map_fold_insert_L by auto.
Qed.

Section Tally.

Variable key_of : AgentRow → string.

Local Abbreviation tally :=
  (foldl (λ (counts : gmap string nat) agent, count_key (key_of agent) counts)).

Lemma tally_counted (counts : gmap string nat) (agents_list : list AgentRow) :
  counted (tally counts agents_list) = counted counts + length agents_list.
Proof.
  revert counts. induction agents_list as [|agent agents_list IH]; intros counts; simpl.
  - lia.
  - rewrite IH, counted_count_key. lia.
Qed.

Lemma tally_lookup (counts : gmap string nat) (agents_list : list AgentRow) (key : string) :
  default 0 (tally counts agents_list !! key)
  = default 0 (counts !! key) + filed_under key_of key agents_list.
Proof.
  unfold filed_under. revert counts.
  induction agents_list as [|agent agents_list IH]; intros counts; simpl; [lia|].
  rewrite IH. unfold count_key. rewrite filter_cons.
  destruct (decide (key_of agent = key)) as [->|Hne].
  - rewrite lookup_insert_eq. simpl. lia.
  - by rewrite lookup_insert_ne.
Qed.

Lemma tally_positive (counts : gmap string nat) (agents_list : list AgentRow) :
  (∀ key, counts !! key ≠ Some 0) →
  ∀ key, tally counts agents_list !! key ≠ Some 0.
Proof.
  revert counts. induction agents_list as [|agent agents_list IH]; intros counts Hpos; [done|].
  simpl. apply IH. intros key. unfold count_key.
  destruct (decide (key_of agent = key)) as [->|Hne].
  - by rewrite lookup_insert_eq.
  - rewrite lookup_insert_ne by done. apply Hpos.
Qed.

End Tally.

Lemma list_agents_success (env : ListEnv) (repository_path : string)
    (agent_type_filter : option string) (include_completed : bool) (limit : Z)
    (r : Listing) :
  list_agents env repository_path agent_type_filter include_completed limit = ToolSuccess r →
  ∃ status_enum_filter all_agents,
    env_list_agents env repository_path status_enum_filter agent_type_filter
    = inr (Some all_agents)
    ∧ listing_agents r
      = (let agents_list := default [] (answer_agents all_agents) in
         let agents_list :=
           if include_completed then agents_list
           else filter (λ agent, row_status agent ≠ Some "completed") agents_list in
         if (limit =? 0)%Z then agents_list else slice_to limit agents_list)
    ∧ filtered_agents (statistics r) = length (listing_agents r)
    ∧ by_status (statistics r)
      = foldl (λ counts agent, count_key (status_key agent) counts) ∅ (listing_agents r)
    ∧ by_type (statistics r)
      = foldl (λ counts agent, count_key (type_key agent) counts) ∅ (listing_agents r).
Proof.
  unfold list_agents.
  destruct (env_status_filter env) as [e|[code message|parsed]]; [done..|].
  match goal with
  | |- context [match ?f with inl _ => _ | inr _ => _ end] =>
      destruct f as [bad|status_enum_filter]; [done|]
  end.
  destruct (env_list_agents env repository_path status_enum_filter agent_type_filter)
    as [e|[all_agents|]] eqn:Hservice; [done| |done].
  cbv zeta. rewrite count_rows_spec. intros [= <-]. by eexists _, _.
Qed.

(** X25: The statistics of a listing add up: ["filtered_agents"] is the number
    of agents returned; every agent returned is counted once under its
    status and once under its type, an absent key counting as "unknown";
    and no count is zero. *)
Theorem listing_statistics_add_up (env : ListEnv) (repository_path : string)
    (agent_type_filter : option string) (include_completed : bool) (limit : Z)
    (r : Listing) :
  list_agents env repository_path agent_type_filter include_completed limit = ToolSuccess r →
  filtered_agents (statistics r) = length (listing_agents r)
  ∧ counted (by_status (statistics r)) = length (listing_agents r)
  ∧ counted (by_type (statistics r)) = length (listing_agents r)
  ∧ (∀ key, default 0 (by_status (statistics r) !! key)
            = filed_under status_key key (listing_agents r))
  ∧ (∀ key, default 0 (by_type (statistics r) !! key)
            = filed_under type_key key (listing_agents r))
  ∧ (∀ key, by_status (statistics r) !! key ≠ Some 0 ∧ by_type (statistics r) !! key ≠ Some 0).
Proof.
  intros Hrun.
  destruct (list_agents_success _ _ _ _ _ _ Hrun)
    as (status_enum_filter & all_agents & _ & _ & Hlen & -> & ->).
  split; [done|]. rewrite !tally_counted.
  split; [done|]. split; [done|].
  split; [intros key; by rewrite tally_lookup|].
  split; [intros key; by rewrite tally_lookup|].
  intros key. split; by apply tally_positive.
Qed.

Lemma listing_statistics_add_up_witness :
  ∃ r,
    list_agents (sample_list_env None) "/repo" None true 2 = ToolSuccess r
    ∧ filtered_agents (statistics r) = 2
    ∧ counted (by_status (statistics r)) = length (listing_agents r)
    ∧ default 0 (by_status (statistics r) !! "active")
      = filed_under status_key "active" (listing_agents r).
Proof.
  destruct (list_agents (sample_list_env None) "/repo" None true 2)
    as [code message|r] eqn:Hrun.
  - vm_compute in Hrun. discriminate Hrun.
  - exists r.
    destruct (listing_statistics_add_up (sample_list_env None) "/repo" None true 2 r Hrun)
      as (Hlen & Hstatus & _ & Hkey & _).
    split; [reflexivity|]. split; [|split; [exact Hstatus|apply Hkey]].
    rewrite Hlen. vm_compute in Hrun. injection Hrun as <-. reflexivity.
Defined.

Lemma slice_to_sublist {A} (limit : Z) (l : list A) : slice_to limit l `sublist_of` l.
Proof. unfold slice_to. destruct (0 <=? limit)%Z; apply sublist_take. Qed.

Lemma filed_under_none (key_of : AgentRow → string) (key : string)
    (agents_list : list AgentRow) :
  (∀ agent, agent ∈ agents_list → key_of agent ≠ key) →
  filed_under key_of key agents_list = 0.
Proof.
  unfold filed_under. induction agents_list as [|agent agents_list IH]; intros Hnone; [done|].
  rewrite filter_cons_False by (apply Hnone; left).
  apply IH. intros a Ha. apply Hnone. by right.
Qed.

(** X26: The agents returned are taken, in order, from the service's list; a
    positive [limit] bounds their number; and when completed agents are
    not asked for, no agent returned has the status "completed" and the
    counts by status have no entry for it. *)
Theorem listing_filters_and_limits (env : ListEnv) (repository_path : string)
    (agent_type_filter : option string) (include_completed : bool) (limit : Z)
    (r : Listing) :
  list_agents env repository_path agent_type_filter include_completed limit = ToolSuccess r →
  (∃ status_enum_filter all_agents,
     env_list_agents env repository_path status_enum_filter agent_type_filter
     = inr (Some all_agents)
     ∧ listing_agents r `sublist_of` default [] (answer_agents all_agents)
     ∧ (include_completed = true → limit = 0%Z →
        listing_agents r = default [] (answer_agents all_agents)))
  ∧ ((0 < limit)%Z → (length (listing_agents r) ≤ Z.to_nat limit)%nat)
  ∧ (include_completed = false →
     (∀ agent, agent ∈ listing_agents r → row_status agent ≠ Some "completed")
     ∧ by_status (statistics r) !! "completed" = None).
Proof.
  intros Hrun.
  destruct (list_agents_success _ _ _ _ _ _ Hrun)
    as (status_enum_filter & all_agents & Hservice & Hlist & _ & Hstatus & _).
  cbv zeta in Hlist.
  set (rows := default [] (answer_agents all_agents)) in *.
  set (kept := if include_completed then rows
               else filter (λ agent, row_status agent ≠ Some "completed") rows) in *.
  assert (kept `sublist_of` rows) as Hkept.
  { subst kept. destruct include_completed; [done|apply sublist_filter]. }
  assert (listing_agents r `sublist_of` kept) as Hsub.
  { rewrite Hlist. destruct (limit =? 0)%Z; [done|apply slice_to_sublist]. }
  split_and!.
  - exists status_enum_filter, all_agents. split; [done|]. split; [by etrans|].
    intros -> ->. by rewrite Hlist.
  - intros Hpos. rewrite Hlist.
    destruct (Z.eqb_spec limit 0) as [->|_]; [lia|].
    unfold slice_to. destruct (Z.leb_spec 0 limit); [|lia]. apply firstn_le_length.
  - intros ->.
    assert (∀ agent, agent ∈ listing_agents r → row_status agent ≠ Some "completed")
      as Hnone.
    { intros agent Hin. apply (elem_of_sublist _ _ _ Hin) in Hsub.
      subst kept. by apply list_elem_of_filter in Hsub as [? _]. }
    split; [done|].
    pose proof (tally_lookup status_key ∅ (listing_agents r) "completed") as Hcount.
    pose proof (tally_positive status_key ∅ (listing_agents r)) as Hpos.
    rewrite <- Hstatus in Hcount, Hpos.
    rewrite filed_under_none in Hcount.
    + destruct (by_status (statistics r) !! "completed") as [[|n]|] eqn:Hentry;
        [|done..]. exfalso. by apply (Hpos ltac:(done) "completed").
    + intros agent Hin Hkey. apply (Hnone agent Hin). unfold status_key in Hkey.
      destruct (row_status agent); simpl in Hkey; [by subst|done].
Qed.

Lemma listing_filters_and_limits_witness :
  ∃ r,
    list_agents (sample_list_env None) "/repo" None false 1 = ToolSuccess r
    ∧ (length (listing_agents r) ≤ Z.to_nat 1)%nat
    ∧ (∀ agent, agent ∈ listing_agents r → row_status agent ≠ Some "completed")
    ∧ by_status (statistics r) !! "completed" = None.
Proof.
  destruct (list_agents (sample_list_env None) "/repo" None false 1)
    as [code message|r] eqn:Hrun.
  - vm_compute in Hrun. discriminate Hrun.
  - exists r.
    destruct (listing_filters_and_limits (sample_list_env None) "/repo" None false 1 r Hrun)
      as (_ & Hlimit & Hcompleted).
    split; [reflexivity|]. split; [apply Hlimit; lia|]. by apply Hcompleted.
Defined.




(** ** The tool [spawn_agent] *)

Ltac room_done :=
  first
    [ rewrite <- ?app_assoc; simpl; eexists; split; [reflexivity|]
    | exists []; rewrite app_nil_r; split; [reflexivity|] ];
  split;
    [ let H := fresh in intros H; first [discriminate H | vm_compute; reflexivity]
    | first [ vm_compute; reflexivity
            | split_and!; first [reflexivity | vm_compute; reflexivity] ] ].

(** The room a spawn call uses, and whether it launches. *)
Lemma spawn_room_use (env : SpawnEnv)
    (agent_type repository_path task_description initial_context : string)
    (foundation_session_id coordination_room : string)
    (capabilities : option (list string)) (raw_configuration : RawConfiguration)
    (depends_on : option (list Dep)) (auto_execute : bool) (w : World) :
  ∃ calls,
    trace (_spawn_single_agent env agent_type repository_path task_description
             initial_context foundation_session_id coordination_room capabilities
             raw_configuration depends_on auto_execute w).2 = trace w ++ calls
    ∧ (nonempty coordination_room = false → count room_join calls = 0)
    ∧ match (_spawn_single_agent env agent_type repository_path task_description
               initial_context foundation_session_id coordination_room capabilities
               raw_configuration depends_on auto_execute w).1 with
      | inl _ => False
      | inr (ToolError _ _) => count launched calls = 0
      | inr (ToolSuccess p) =>
          sp_auto_execute p = auto_execute
          ∧ sp_coordination_room p
            = room_name_of coordination_room agent_type (sp_agent_id p)
          ∧ count launched calls = (if auto_execute then 1 else 0)
      end.
Proof.
  spawn_paths env depends_on auto_execute coordination_room room_done.
Qed.

(** X28: The tool [spawn_agent] never joins a room: a call that returns a
    success dictionary launched one process, with auto-execution on and in
    a room of its own making, named after the agent type and the first
    eight characters of the agent id.  The tool raises only what
    [parse_json_list] raises, and an error dictionary means that no process
    was launched. *)
Theorem spawn_agent_makes_its_own_room (env : SpawnEnv)
    (agent_type repository_path task_description : string)
    (capabilities : Exn + ParsedList string) (raw_configuration : RawConfiguration)
    (depends_on : Exn + ParsedList Dep) (foundation_session_id : option string)
    (w : World) :
  ∃ calls,
    trace (spawn_agent env agent_type repository_path task_description capabilities
             raw_configuration depends_on foundation_session_id w).2 = trace w ++ calls
    ∧ count room_join calls = 0
    ∧ match (spawn_agent env agent_type repository_path task_description capabilities
               raw_configuration depends_on foundation_session_id w).1 with
      | inl e => capabilities = inl e ∨ depends_on = inl e
      | inr (ToolError _ _) => count launched calls = 0
      | inr (ToolSuccess p) =>
          sp_auto_execute p = true
          ∧ sp_coordination_room p
            = agent_type +:+ "-" +:+ String.substring 0 8 (sp_agent_id p)
          ∧ count launched calls = 1
      end.
Proof.
  unfold spawn_agent.
  destruct capabilities as [e|[code message|parsed_capabilities]].
  { exists []. rewrite app_nil_r. split_and!; [done..|by left]. }
  { exists []. rewrite app_nil_r. by split_and!. }
  destruct depends_on as [e|[code message|parsed_depends_on]].
  { exists []. rewrite app_nil_r. split_and!; [done..|by right]. }
  { exists []. rewrite app_nil_r. by split_and!. }
  destruct (spawn_room_use env agent_type repository_path task_description ""
              (default "" foundation_session_id) "" parsed_capabilities raw_configuration
              parsed_depends_on true w) as (calls & Htrace & Hjoin & Hresult).
  exists calls. split; [done|]. split; [by apply Hjoin|].
  destruct (_spawn_single_agent _ _ _ _ _ _ _ _ _ _ _ _) as [[e|[code message|p]] w'];
    simpl in *; done.
Qed.

(** X29: A list parameter that does not parse stops [spawn_agent] before any
    collaborator is called: the world is unchanged and no success
    dictionary is returned; an error dictionary for [capabilities] is
    returned as it is, whatever [depends_on] holds. *)
Theorem unparsed_list_stops_spawn_agent (env : SpawnEnv)
    (agent_type repository_path task_description : string)
    (capabilities : Exn + ParsedList string) (raw_configuration : RawConfiguration)
    (depends_on : Exn + ParsedList Dep) (foundation_session_id : option string)
    (w : World) :
  (∀ parsed, capabilities ≠ inr (ListValue parsed))
  ∨ (∀ parsed, depends_on ≠ inr (ListValue parsed)) →
  (spawn_agent env agent_type repository_path task_description capabilities
     raw_configuration depends_on foundation_session_id w).2 = w
  ∧ (∀ p, (spawn_agent env agent_type repository_path task_description capabilities
             raw_configuration depends_on foundation_session_id w).1
          ≠ inr (ToolSuccess p))
  ∧ (∀ code message,
       capabilities = inr (ListError code message) →
       (spawn_agent env agent_type repository_path task_description capabilities
          raw_configuration depends_on foundation_session_id w).1
       = inr (ToolError code message)).
Proof.
  intros Hunparsed. unfold spawn_agent.
  destruct capabilities as [e|[code message|parsed_capabilities]].
  { split_and!; [done..|]. intros ?? [=]. }
  { split_and!; [done..|]. by intros ?? [= <- <-]. }
  destruct depends_on as [e|[code message|parsed_depends_on]].
  { split_and!; [done..|]. intros ?? [=]. }
  { split_and!; [done..|]. intros ?? [=]. }
  destruct Hunparsed as [Hc|Hd]; [by destruct (Hc parsed_capabilities)|
                                  by destruct (Hd parsed_depends_on)].
Qed.

Lemma unparsed_list_stops_spawn_agent_witness :
  (spawn_agent env_launch_works "backend" "/repo" "build the API"
     (inr (ListError "INVALID_JSON_LIST" "capabilities is not a list")) RawNone
     (inr (ListValue None)) None empty_world).2 = empty_world
  ∧ (spawn_agent env_launch_works "backend" "/repo" "build the API"
       (inr (ListError "INVALID_JSON_LIST" "capabilities is not a list")) RawNone
       (inr (ListValue None)) None empty_world).1
    = inr (ToolError "INVALID_JSON_LIST" "capabilities is not a list").
Proof.
  destruct (unparsed_list_stops_spawn_agent env_launch_works "backend" "/repo"
              "build the API"
              (inr (ListError "INVALID_JSON_LIST" "capabilities is not a list")) RawNone
              (inr (ListValue None)) None empty_world) as (Hworld & _ & Herror).
  - left. intros parsed. discriminate.
  - split; [exact Hworld|]. by apply Herror.
Defined.
